(** * DarijaNormalizer.js: a shallow embedding and its properties

    The module exports one table, [ARABIC_CHAT_MAP], and one function,
    [normalizeDarija].  JavaScript strings are sequences of UTF-16 code
    units; they are modelled as lists of [N].  The function builds regular
    expressions at run time, which can raise, so it lives in a small
    completion monad. *)

From Stdlib Require Import List NArith ZArith Bool Lia String Ascii SpecFloat.
From Stdlib Require Import Permutation Sorted.
Import ListNotations.

Local Open Scope N_scope.

(** ** Strings *)

Definition codeunit := N.
Definition jsstring := list codeunit.

Fixpoint jsstring_eqb (s t : jsstring) : bool :=
  match s, t with
  | [], [] => true
  | c :: s', d :: t' => (c =? d) && jsstring_eqb s' t'
  | _, _ => false
  end.

(** Source literals are written as Rocq strings (UTF-8 bytes) and decoded to
    UTF-16 code units, so that the Arabic literals of the source can be
    written as they are. *)
Fixpoint utf16_of_utf8 (bs : list N) : jsstring :=
  match bs with
  | [] => []
  | b0 :: r0 =>
      if b0 <? 0x80 then b0 :: utf16_of_utf8 r0
      else if b0 <? 0xE0 then
        match r0 with
        | b1 :: r1 =>
            N.lor (N.shiftl (N.land b0 0x1F) 6) (N.land b1 0x3F)
              :: utf16_of_utf8 r1
        | _ => [0xFFFD]
        end
      else if b0 <? 0xF0 then
        match r0 with
        | b1 :: b2 :: r2 =>
            N.lor (N.shiftl (N.land b0 0x0F) 12)
              (N.lor (N.shiftl (N.land b1 0x3F) 6) (N.land b2 0x3F))
              :: utf16_of_utf8 r2
        | _ => [0xFFFD]
        end
      else
        match r0 with
        | b1 :: b2 :: b3 :: r3 =>
            let cp :=
              N.lor (N.shiftl (N.land b0 0x07) 18)
                (N.lor (N.shiftl (N.land b1 0x3F) 12)
                   (N.lor (N.shiftl (N.land b2 0x3F) 6) (N.land b3 0x3F))) in
            let v := cp - 0x10000 in
            (0xD800 + N.shiftr v 10) :: (0xDC00 + N.land v 0x3FF)
              :: utf16_of_utf8 r3
        | _ => [0xFFFD]
        end
  end.

Definition js (s : string) : jsstring :=
  utf16_of_utf8 (map N_of_ascii (list_ascii_of_string s)).

(** ** Values, [typeof] and truthiness *)

Inductive JSValue : Type :=
| JSUndefined
| JSNull
| JSBoolean (b : bool)
| JSNumber (x : spec_float)
| JSBigInt (z : Z)
| JSString (s : jsstring)
| JSSymbol (id : nat)
| JSObject (ref : nat)
| JSFunction (ref : nat).

Definition typeof (v : JSValue) : jsstring :=
  match v with
  | JSUndefined => js "undefined"
  | JSNull => js "object"
  | JSBoolean _ => js "boolean"
  | JSNumber _ => js "number"
  | JSBigInt _ => js "bigint"
  | JSString _ => js "string"
  | JSSymbol _ => js "symbol"
  | JSObject _ => js "object"
  | JSFunction _ => js "function"
  end.

Definition ToBoolean (v : JSValue) : bool :=
  match v with
  | JSUndefined | JSNull => false
  | JSBoolean b => b
  | JSNumber (S754_zero _) | JSNumber S754_nan => false
  | JSNumber _ => true
  | JSBigInt z => negb (z =? 0)%Z
  | JSString s => negb (Nat.eqb (List.length s) 0)
  | JSSymbol _ | JSObject _ | JSFunction _ => true
  end.

(** ** Completions *)

Inductive JSError : Type := SyntaxError.

Inductive completion (A : Type) : Type :=
| Normal (a : A)
| Throw (e : JSError).
Arguments Normal {A} a.
Arguments Throw {A} e.

Definition bind {A B} (c : completion A) (k : A -> completion B)
  : completion B :=
  match c with
  | Normal a => k a
  | Throw e => Throw e
  end.

Notation "x <- c ;; k" := (bind c (fun x => k))
  (at level 61, c at next level, right associativity).

(** [Array.prototype.forEach] with a callback that assigns to one captured
    variable: the variable is threaded through the calls. *)
Fixpoint forEach {S : Type} (l : list jsstring)
  (callback : jsstring -> S -> completion S) (st : S) : completion S :=
  match l with
  | [] => Normal st
  | key :: l' => st' <- callback key st ;; forEach l' callback st'
  end.

(** ** Objects used as tables *)

(** An object literal with string keys, in the order the properties are
    written. *)
Definition JSTable := list (jsstring * jsstring).

Definition is_digit (c : codeunit) : bool := (48 <=? c) && (c <=? 57).

Definition digits_value (s : jsstring) : N :=
  fold_left (fun acc c => 10 * acc + (c - 48)) s 0.

(** A property key is an array index when it is the canonical decimal
    form of an integer below 2^32 - 1. *)
Definition array_index (key : jsstring) : option N :=
  match key with
  | [] => None
  | c :: r =>
      if forallb is_digit key
         && (negb (c =? 48) || Nat.eqb (List.length r) 0)
         && (digits_value key <? 2 ^ 32 - 1)
      then Some (digits_value key)
      else None
  end.

Fixpoint insert_index (e : N * jsstring) (l : list (N * jsstring))
  : list (N * jsstring) :=
  match l with
  | [] => [e]
  | e' :: l' =>
      if fst e <=? fst e' then e :: l else e' :: insert_index e l'
  end.

Fixpoint index_keys (t : JSTable) : list (N * jsstring) :=
  match t with
  | [] => []
  | (key, _) :: t' =>
      match array_index key with
      | Some i => insert_index (i, key) (index_keys t')
      | None => index_keys t'
      end
  end.

Fixpoint string_keys (t : JSTable) : list jsstring :=
  match t with
  | [] => []
  | (key, _) :: t' =>
      match array_index key with
      | Some _ => string_keys t'
      | None => key :: string_keys t'
      end
  end.

(** [Object.keys]: array-index keys in ascending numeric order, then the
    other string keys in the order they were written. *)
Definition Object_keys (t : JSTable) : list jsstring :=
  map snd (index_keys t) ++ string_keys t.

(** Property read [t[key]]; a missing property reads as [undefined]. *)
Fixpoint get (t : JSTable) (key : jsstring) : option jsstring :=
  match t with
  | [] => None
  | (k, v) :: t' => if jsstring_eqb k key then Some v else get t' key
  end.

(** The replacement argument of [replace] is converted with ToString. *)
Definition ToString_property (v : option jsstring) : jsstring :=
  match v with
  | Some s => s
  | None => js "undefined"
  end.

(** [Array.prototype.sort] with a comparator: a stable sort; [a] stays in
    front of [b] unless the comparator is positive on [(a, b)]. *)
Fixpoint sort_insert (cmp : jsstring -> jsstring -> Z) (a : jsstring)
  (l : list jsstring) : list jsstring :=
  match l with
  | [] => [a]
  | b :: l' =>
      if (cmp a b <=? 0)%Z then a :: l else b :: sort_insert cmp a l'
  end.

Definition Array_sort (cmp : jsstring -> jsstring -> Z) (l : list jsstring)
  : list jsstring :=
  fold_right (sort_insert cmp) [] l.

(** ** Regular expressions and [String.prototype.replace]

    The function builds its patterns from table keys with [new RegExp].  The
    fragment modelled is the literal one: a pattern none of whose code
    units is a syntax character denotes that exact sequence.  Any other
    pattern (in JavaScript either a SyntaxError or a pattern that is not a
    literal) and any flag string other than the empty one and [g] are
    abrupt completions of the model. *)

Record RegExp : Type := { source : jsstring; global : bool }.

(** [^ $ \ . * + ? ( ) [ ] { } |] *)
Definition is_syntax_character (c : codeunit) : bool :=
  existsb (N.eqb c) (js "^$\.*+?()[]{}|").

Definition RegExp_new (pattern flags : jsstring) : completion RegExp :=
  if existsb is_syntax_character pattern then Throw SyntaxError
  else if jsstring_eqb flags (js "g") then
    Normal {| source := pattern; global := true |}
  else if jsstring_eqb flags [] then
    Normal {| source := pattern; global := false |}
  else Throw SyntaxError.

Fixpoint starts_with (pat s : jsstring) : bool :=
  match pat, s with
  | [], _ => true
  | p :: pat', c :: s' => (p =? c) && starts_with pat' s'
  | _ :: _, [] => false
  end.

(** Global replacement of a non-empty literal, left to right, matches not
    overlapping: [skip] counts the code units of the current match still to
    be passed over. *)
Fixpoint replace_from (pat rep : jsstring) (skip : nat) (s : jsstring)
  : jsstring :=
  match s with
  | [] => []
  | c :: s' =>
      match skip with
      | S k => replace_from pat rep k s'
      | O =>
          if starts_with pat s
          then rep ++ replace_from pat rep (List.length pat - 1) s'
          else c :: replace_from pat rep 0 s'
      end
  end.

(** The empty pattern matches the empty string at every index. *)
Definition replace_all (pat rep s : jsstring) : jsstring :=
  match pat with
  | [] => rep ++ flat_map (fun c => c :: rep) s
  | _ :: _ => replace_from pat rep 0 s
  end.

Fixpoint replace_first (pat rep s : jsstring) : jsstring :=
  match s with
  | [] => if starts_with pat [] then rep else []
  | c :: s' =>
      if starts_with pat s then rep ++ skipn (List.length pat) s
      else c :: replace_first pat rep s'
  end.

(** [s.replace(regex, rep)] for a replacement text without [$]: the text is
    inserted as it is. *)
Definition String_replace (s : jsstring) (regex : RegExp) (rep : jsstring)
  : jsstring :=
  if global regex then replace_all (source regex) rep s
  else replace_first (source regex) rep s.

(** ** Case and white space *)

(** [String.prototype.toLowerCase] on the code units [A]-[Z]; every other
    code unit is kept.  This is the function of the code on ASCII, white
    space and Arabic-script text ([plain_text] below); the case mappings of
    letters outside ASCII, some of which change the length of the text or
    depend on the neighbouring letters, are not modelled.  The table's
    keys are ASCII. *)
Definition lower_unit (c : codeunit) : codeunit :=
  if (65 <=? c) && (c <=? 90) then c + 32 else c.

Definition toLowerCase (s : jsstring) : jsstring := map lower_unit s.

(** The class [\s], which is also what [trim] removes: WhiteSpace and
    LineTerminator. *)
Definition is_whitespace (c : codeunit) : bool :=
  ((9 <=? c) && (c <=? 13))
  || (c =? 0x20) || (c =? 0xA0) || (c =? 0x1680)
  || ((0x2000 <=? c) && (c <=? 0x200A))
  || (c =? 0x2028) || (c =? 0x2029) || (c =? 0x202F) || (c =? 0x205F)
  || (c =? 0x3000) || (c =? 0xFEFF).

(** [s.replace(/\s\s+/g, rep)]: every maximal run of two or more white
    space code units becomes [rep]; [in_run] says that such a run has been
    entered and its replacement emitted. *)
Fixpoint replace_ws_runs (rep : jsstring) (in_run : bool) (s : jsstring)
  : jsstring :=
  match s with
  | [] => []
  | c :: s' =>
      if is_whitespace c then
        if in_run then replace_ws_runs rep true s'
        else
          match s' with
          | d :: _ =>
              if is_whitespace d then rep ++ replace_ws_runs rep true s'
              else c :: replace_ws_runs rep false s'
          | [] => [c]
          end
      else c :: replace_ws_runs rep false s'
  end.

Fixpoint trimStart (s : jsstring) : jsstring :=
  match s with
  | [] => []
  | c :: s' => if is_whitespace c then trimStart s' else s
  end.

Definition trimEnd (s : jsstring) : jsstring := rev (trimStart (rev s)).

Definition trim (s : jsstring) : jsstring := trimEnd (trimStart s).

(** ** The module *)

Definition ARABIC_CHAT_MAP : JSTable :=
  [ (js "3", js "ع");
    (js "7", js "ح");
    (js "9", js "ق");
    (js "2", js "ء");
    (js "5", js "خ");
    (js "6", js "ط");
    (js "8", js "غ");
    (js "dh", js "ذ");
    (js "d7", js "ظ");
    (js "sh", js "ش");
    (js "s5", js "ص");
    (js "s9", js "ص");
    (js "d9", js "ض");
    (js "z7", js "ز") ].

(** The callback of both [forEach] loops. *)
Definition replace_key (key normalizedText : jsstring)
  : completion jsstring :=
  regex <- RegExp_new key (js "g") ;;
  Normal (String_replace normalizedText regex
            (ToString_property (get ARABIC_CHAT_MAP key))).

Definition normalizeDarija (text : JSValue) : completion jsstring :=
  if negb (ToBoolean text) || negb (jsstring_eqb (typeof text) (js "string"))
  then Normal []
  else
    match text with
    | JSString s =>
        let normalizedText := toLowerCase s in
        let multiCharKeys :=
          filter (fun key => Nat.ltb 1 (List.length key))
            (Object_keys ARABIC_CHAT_MAP) in
        let multiCharKeys :=
          Array_sort
            (fun a b =>
               (Z.of_nat (List.length b) - Z.of_nat (List.length a))%Z)
            multiCharKeys in
        normalizedText <- forEach multiCharKeys replace_key normalizedText ;;
        let singleCharKeys :=
          filter (fun key => Nat.eqb (List.length key) 1)
            (Object_keys ARABIC_CHAT_MAP) in
        normalizedText <- forEach singleCharKeys replace_key normalizedText ;;
        let normalizedText :=
          trim (replace_ws_runs (js " ") false normalizedText) in
        Normal normalizedText
    | _ => Normal []
    end.

(** ** Derived forms used by the proofs *)

(** The substitution rule of a key: the key and what [replace_key] puts in
    its place. *)
Definition rules_of (keys : list jsstring) : list (jsstring * jsstring) :=
  map (fun key => (key, ToString_property (get ARABIC_CHAT_MAP key))) keys.

Definition apply_rules (rules : list (jsstring * jsstring)) (t : jsstring)
  : jsstring :=
  fold_left (fun t r => replace_all (fst r) (snd r) t) rules t.

(** The rules of the first loop, in the order the loop visits them. *)
Definition multi_rules : list (jsstring * jsstring) :=
  [ (js "dh", js "ذ"); (js "d7", js "ظ"); (js "sh", js "ش");
    (js "s5", js "ص"); (js "s9", js "ص"); (js "d9", js "ض");
    (js "z7", js "ز") ].

(** The rules of the second loop, in the order the loop visits them. *)
Definition single_rules : list (jsstring * jsstring) :=
  [ (js "2", js "ء"); (js "3", js "ع"); (js "5", js "خ");
    (js "6", js "ط"); (js "7", js "ح"); (js "8", js "غ");
    (js "9", js "ق") ].

Definition substitute (t : jsstring) : jsstring :=
  apply_rules single_rules (apply_rules multi_rules t).

Definition cleanup (t : jsstring) : jsstring :=
  trim (replace_ws_runs (js " ") false t).

(** Observations on strings. *)
Definition starts_with_ws (s : jsstring) : bool := is_whitespace (hd 0 s).

Definition ends_with_ws (s : jsstring) : bool := is_whitespace (last s 0).

Fixpoint has_ws_run (s : jsstring) : bool :=
  match s with
  | [] => false
  | c :: s' => (is_whitespace c && starts_with_ws s') || has_ws_run s'
  end.

(** A rule whose key is not empty and whose key and replacement hold no
    white space, the replacement being not empty either. *)
Definition rule_wf (r : jsstring * jsstring) : bool :=
  negb (Nat.eqb (List.length (fst r)) 0)
  && negb (existsb is_whitespace (fst r))
  && negb (Nat.eqb (List.length (snd r)) 0)
  && negb (existsb is_whitespace (snd r)).

(** The digits that are keys of the table. *)
Definition digit_keys : jsstring := js "2356789".

(** Code units of the Arabic blocks of the Basic Multilingual Plane: Arabic,
    Arabic Supplement, Arabic Extended-B and -A, and the presentation forms
    A and B (the byte order mark U+FEFF, last of that block, is not a
    letter and is left out). *)
Definition is_arabic_script (c : codeunit) : bool :=
  ((0x0600 <=? c) && (c <=? 0x06FF))
  || ((0x0750 <=? c) && (c <=? 0x077F))
  || ((0x0870 <=? c) && (c <=? 0x08FF))
  || ((0xFB50 <=? c) && (c <=? 0xFDFF))
  || ((0xFE70 <=? c) && (c <=? 0xFEFC)).

(** Text made of Arabic-script code units and single spaces between
    them. *)
Definition arabic_single_spaced (s : jsstring) : bool :=
  forallb (fun c => is_arabic_script c || (c =? 32)) s
  && negb (has_ws_run s)
  && negb (starts_with_ws s)
  && negb (ends_with_ws s).

Definition is_ascii_upper (c : codeunit) : bool := (65 <=? c) && (c <=? 90).

(** Two code units that are equal, or the two cases of one ASCII letter. *)
Definition same_ascii_letter (c d : codeunit) : bool :=
  (c =? d)
  || (is_ascii_upper c && (d =? c + 32))
  || (is_ascii_upper d && (c =? d + 32)).

(** Two strings that differ in the case of ASCII letters only. *)
Fixpoint same_modulo_ascii_case (s t : jsstring) : bool :=
  match s, t with
  | [], [] => true
  | c :: s', d :: t' => same_ascii_letter c d && same_modulo_ascii_case s' t'
  | _, _ => false
  end.

(** [pat] occurs in [s] as a run of adjacent code units. *)
Fixpoint occurs (pat s : jsstring) : bool :=
  match s with
  | [] => starts_with pat []
  | _ :: s' => starts_with pat s || occurs pat s'
  end.

(** Some key of the table occurs in [s]. *)
Definition key_occurs (s : jsstring) : bool :=
  existsb (fun key => occurs key s) (map fst ARABIC_CHAT_MAP).

(** No run of white space, and none at either end. *)
Definition tidy (s : jsstring) : bool :=
  negb (has_ws_run s) && negb (starts_with_ws s) && negb (ends_with_ws s).

(** Text on which no step of [normalizeDarija] has anything to do: it has
    no ASCII capital, no key of the table occurs in it, and its white space
    is tidy. *)
Definition is_normal_form (s : jsstring) : bool :=
  negb (existsb is_ascii_upper s) && negb (key_occurs s) && tidy s.

(** Text on which [String.prototype.toLowerCase] is the map [toLowerCase]
    above: ASCII, white space and the Arabic blocks.  Of these code units
    only [A]-[Z] have a lower case form, none is a surrogate, and no
    capital sigma, the one letter whose lowering depends on its
    neighbours, is among them. *)
Definition plain_text (s : jsstring) : bool :=
  forallb (fun c => (c <? 128) || is_whitespace c || is_arabic_script c) s.

(** The code units the keys of the table are made of, and those of its
    replacement texts. *)
Definition key_units : jsstring := List.concat (map fst ARABIC_CHAT_MAP).

Definition value_units : jsstring :=
  List.concat (map snd ARABIC_CHAT_MAP).

(** A code unit that no step looks at or produces: not white space, in no
    key and in no replacement text. *)
Definition passes_through (c : codeunit) : bool :=
  negb (is_whitespace c)
  && negb (existsb (N.eqb c) key_units)
  && negb (existsb (N.eqb c) value_units).

(** What the table says about one code unit taken alone. *)
Definition substitute_unit (t : JSTable) (c : codeunit) : jsstring :=
  match get t [c] with
  | Some v => v
  | None => [c]
  end.

(** The comparator of the [sort] call. *)
Definition by_length_descending (a b : jsstring) : Z :=
  (Z.of_nat (List.length b) - Z.of_nat (List.length a))%Z.

(** Two rules with keys of two code units that cannot interfere: the keys
    differ, neither ends with the code unit the other starts with, and
    neither replacement text, which is not empty, has a code unit of the
    other key. *)
Definition rules_apart (r r' : jsstring * jsstring) : bool :=
  match fst r, fst r' with
  | [a; b], [a'; b'] =>
      negb (b =? a') && negb (b' =? a) && negb ((a =? a') && (b =? b'))
      && negb (Nat.eqb (List.length (snd r)) 0)
      && negb (Nat.eqb (List.length (snd r')) 0)
      && forallb (fun x => negb (x =? a') && negb (x =? b')) (snd r)
      && forallb (fun x => negb (x =? a) && negb (x =? b)) (snd r')
  | _, _ => false
  end.

Definition same_rule (r r' : jsstring * jsstring) : bool :=
  jsstring_eqb (fst r) (fst r') && jsstring_eqb (snd r) (snd r').

(** The two arrays of keys the function builds. *)
Definition multiCharKeys : list jsstring :=
  Array_sort by_length_descending
    (filter (fun key => Nat.ltb 1 (List.length key))
       (Object_keys ARABIC_CHAT_MAP)).

Definition singleCharKeys : list jsstring :=
  filter (fun key => Nat.eqb (List.length key) 1)
    (Object_keys ARABIC_CHAT_MAP).

(** * Properties *)

(** ** The loops never raise on the table's keys *)

Lemma replace_key_literal (key t : jsstring) :
  existsb is_syntax_character key = false ->
  replace_key key t =
  Normal (replace_all key (ToString_property (get ARABIC_CHAT_MAP key)) t).
Proof.
  intros Hlit. unfold replace_key, RegExp_new. rewrite Hlit.
  change (jsstring_eqb (js "g") (js "g")) with true.
  reflexivity.
Qed.

Lemma forEach_replace_key (keys : list jsstring) (t : jsstring) :
  forallb (fun key => negb (existsb is_syntax_character key)) keys = true ->
  forEach keys replace_key t = Normal (apply_rules (rules_of keys) t).
Proof.
  revert t. induction keys as [|key keys IH]; intros t Hkeys.
  - reflexivity.
  - simpl in Hkeys. apply andb_true_iff in Hkeys as [Hkey Hkeys].
    apply negb_true_iff in Hkey.
    simpl forEach. rewrite (replace_key_literal key t Hkey).
    simpl bind. rewrite (IH _ Hkeys). reflexivity.
Qed.

Lemma normalizeDarija_cons (c : codeunit) (s : jsstring) :
  normalizeDarija (JSString (c :: s)) =
  Normal (cleanup (substitute (toLowerCase (c :: s)))).
Proof.
  unfold normalizeDarija.
  change (negb (ToBoolean (JSString (c :: s)))) with false.
  change (jsstring_eqb (typeof (JSString (c :: s))) (js "string")) with true.
  cbv beta iota delta [negb orb].
  rewrite forEach_replace_key by (vm_compute; reflexivity).
  cbv beta iota delta [bind].
  rewrite forEach_replace_key by (vm_compute; reflexivity).
  reflexivity.
Qed.

(** ** White space: runs, ends, and the clean-up step *)

Section WhiteSpace.

#[local] Arguments is_whitespace : simpl never.

Lemma is_whitespace_space : is_whitespace 32 = true.
Proof. reflexivity. Qed.

Lemma is_whitespace_default : is_whitespace 0 = false.
Proof. reflexivity. Qed.

Lemma starts_with_ws_nil : starts_with_ws [] = false.
Proof. reflexivity. Qed.

Lemma starts_with_ws_cons c s : starts_with_ws (c :: s) = is_whitespace c.
Proof. reflexivity. Qed.

Lemma starts_with_ws_app a b :
  a <> [] -> starts_with_ws (a ++ b) = starts_with_ws a.
Proof. destruct a; [congruence | reflexivity]. Qed.

Lemma ends_with_ws_nil : ends_with_ws [] = false.
Proof. reflexivity. Qed.

Lemma ends_with_ws_snoc s c : ends_with_ws (s ++ [c]) = is_whitespace c.
Proof. unfold ends_with_ws. now rewrite last_last. Qed.

Lemma ends_with_ws_app a b :
  b <> [] -> ends_with_ws (a ++ b) = ends_with_ws b.
Proof.
  intros Hb. destruct (exists_last Hb) as (b' & c & ->).
  rewrite app_assoc. now rewrite !ends_with_ws_snoc.
Qed.

Lemma ends_with_ws_rev s : ends_with_ws (rev s) = starts_with_ws s.
Proof.
  destruct s as [|c s]; [reflexivity|].
  simpl rev. now rewrite ends_with_ws_snoc.
Qed.

Lemma starts_with_ws_rev s : starts_with_ws (rev s) = ends_with_ws s.
Proof. now rewrite <- ends_with_ws_rev, rev_involutive. Qed.

Lemma ends_with_ws_cons c d s :
  ends_with_ws (c :: d :: s) = ends_with_ws (d :: s).
Proof. reflexivity. Qed.

Lemma has_ws_run_cons c s :
  has_ws_run (c :: s) =
  (is_whitespace c && starts_with_ws s) || has_ws_run s.
Proof. reflexivity. Qed.

Lemma has_ws_run_app a b :
  has_ws_run (a ++ b) =
  has_ws_run a || (ends_with_ws a && starts_with_ws b) || has_ws_run b.
Proof.
  induction a as [|c a IH]; [reflexivity|].
  destruct a as [|d a].
  - cbn [app has_ws_run]. change (ends_with_ws [c]) with (is_whitespace c).
    rewrite starts_with_ws_nil, andb_false_r. reflexivity.
  - change ((c :: d :: a) ++ b) with (c :: ((d :: a) ++ b)).
    rewrite (has_ws_run_cons c ((d :: a) ++ b)), IH.
    rewrite (has_ws_run_cons c (d :: a)).
    rewrite (starts_with_ws_app (d :: a) b) by discriminate.
    rewrite (ends_with_ws_cons c d a).
    now rewrite !orb_assoc.
Qed.

(** What [trimStart] and [trimEnd] remove is white space, and what they
    leave is the rest. *)
Lemma trimStart_split s :
  exists w, s = w ++ trimStart s /\ forallb is_whitespace w = true.
Proof.
  induction s as [|c s (w & Hs & Hw)]; [now exists []|].
  cbn [trimStart]. destruct (is_whitespace c) eqn:Hc.
  - exists (c :: w). cbn [app forallb]. rewrite Hc, Hw. now rewrite <- Hs.
  - now exists [].
Qed.

Lemma trimEnd_split s :
  exists w, s = trimEnd s ++ w /\ forallb is_whitespace w = true.
Proof.
  destruct (trimStart_split (rev s)) as (w & Hs & Hw).
  exists (rev w). split.
  - unfold trimEnd. rewrite <- rev_app_distr, <- Hs.
    now rewrite rev_involutive.
  - apply forallb_forall. intros x Hx. apply in_rev in Hx.
    revert x Hx. now apply forallb_forall.
Qed.

Lemma trimStart_starts s : starts_with_ws (trimStart s) = false.
Proof.
  induction s as [|c s IH]; [reflexivity|].
  cbn [trimStart]. destruct (is_whitespace c) eqn:Hc; [exact IH|].
  now rewrite starts_with_ws_cons.
Qed.

Lemma trimEnd_ends s : ends_with_ws (trimEnd s) = false.
Proof. unfold trimEnd. rewrite ends_with_ws_rev. apply trimStart_starts. Qed.

Lemma trimStart_id s : starts_with_ws s = false -> trimStart s = s.
Proof.
  destruct s as [|c s]; [reflexivity|].
  rewrite starts_with_ws_cons. cbn [trimStart]. now intros ->.
Qed.

Lemma trimEnd_id s : ends_with_ws s = false -> trimEnd s = s.
Proof.
  intros Hs. unfold trimEnd. rewrite trimStart_id.
  - apply rev_involutive.
  - now rewrite starts_with_ws_rev.
Qed.

Lemma trim_id s :
  starts_with_ws s = false -> ends_with_ws s = false -> trim s = s.
Proof.
  intros Hs He. unfold trim. rewrite (trimStart_id s Hs).
  now apply trimEnd_id.
Qed.

Lemma trim_starts s : starts_with_ws (trim s) = false.
Proof.
  unfold trim. destruct (trimEnd_split (trimStart s)) as (w & Hs & _).
  destruct (trimEnd (trimStart s)) as [|c t] eqn:Ht; [reflexivity|].
  pose proof (trimStart_starts s) as H. rewrite Hs in H.
  now rewrite starts_with_ws_app in H by discriminate.
Qed.

Lemma trim_ends s : ends_with_ws (trim s) = false.
Proof. apply trimEnd_ends. Qed.

Lemma trim_no_run s : has_ws_run s = false -> has_ws_run (trim s) = false.
Proof.
  intros Hs. unfold trim.
  destruct (trimStart_split s) as (w1 & H1 & _).
  destruct (trimEnd_split (trimStart s)) as (w2 & H2 & _).
  rewrite H1, H2, !has_ws_run_app in Hs.
  repeat (apply orb_false_iff in Hs as [Hs ?]).
  apply orb_false_iff in H as [H ?].
  apply orb_false_iff in H as [H ?]. exact H.
Qed.

Lemma In_trim x s : In x (trim s) -> In x s.
Proof.
  intros Hx. unfold trim in Hx.
  destruct (trimStart_split s) as (w1 & H1 & _).
  destruct (trimEnd_split (trimStart s)) as (w2 & H2 & _).
  rewrite H1, H2, !in_app_iff. auto.
Qed.

(** After the replacement no two white space code units are adjacent; a
    run that has been entered is consumed to its end. *)
Lemma replace_ws_runs_spec b s :
  has_ws_run (replace_ws_runs (js " ") b s) = false
  /\ (b = true -> starts_with_ws (replace_ws_runs (js " ") b s) = false).
Proof.
  change (js " ") with [32].
  revert b. induction s as [|c s IH]; intros b; [now split|].
  cbn [replace_ws_runs]. destruct (is_whitespace c) eqn:Hc.
  - destruct b; [apply IH|].
    split; [|discriminate].
    destruct s as [|d s]; [cbn; now rewrite andb_false_r|].
    destruct (is_whitespace d) eqn:Hd.
    + destruct (IH true) as [Hrun Hst].
      cbn [app has_ws_run]. rewrite Hrun, (Hst eq_refl).
      now rewrite andb_false_r.
    + destruct (IH false) as [Hrun _].
      cbn [has_ws_run]. rewrite Hrun.
      cbn [replace_ws_runs]. rewrite Hd, starts_with_ws_cons, Hd.
      now rewrite andb_false_r.
  - destruct (IH false) as [Hrun _]. split.
    + cbn [has_ws_run]. now rewrite Hc, Hrun.
    + intros _. now rewrite starts_with_ws_cons.
Qed.

Lemma replace_ws_runs_id s :
  has_ws_run s = false -> replace_ws_runs (js " ") false s = s.
Proof.
  induction s as [|c s IH]; [reflexivity|].
  cbn [has_ws_run]. intros H. apply orb_false_iff in H as [Hc Hs].
  cbn [replace_ws_runs]. destruct (is_whitespace c) eqn:Ec.
  - destruct s as [|d s]; [reflexivity|].
    rewrite starts_with_ws_cons in Hc. cbn [andb] in Hc. rewrite Hc.
    now rewrite (IH Hs).
  - now rewrite (IH Hs).
Qed.

Lemma In_replace_ws_runs rep b x s :
  In x (replace_ws_runs rep b s) -> In x s \/ In x rep.
Proof.
  revert b. induction s as [|c s IH]; intros b; [now left|].
  cbn [replace_ws_runs]. destruct (is_whitespace c).
  - destruct b.
    + intros H. destruct (IH _ H); [left; now right | now right].
    + destruct s as [|d s]; [now left|].
      destruct (is_whitespace d).
      * rewrite in_app_iff. intros [H|H]; [now right|].
        destruct (IH _ H); [left; now right | now right].
      * intros [H|H]; [left; now left|].
        destruct (IH _ H); [left; now right | now right].
  - intros [H|H]; [left; now left|].
    destruct (IH _ H); [left; now right | now right].
Qed.

Lemma cleanup_tidy t :
  has_ws_run (cleanup t) = false
  /\ starts_with_ws (cleanup t) = false
  /\ ends_with_ws (cleanup t) = false.
Proof.
  unfold cleanup. repeat split.
  - apply trim_no_run, replace_ws_runs_spec.
  - apply trim_starts.
  - apply trim_ends.
Qed.

Lemma cleanup_id t :
  has_ws_run t = false -> starts_with_ws t = false ->
  ends_with_ws t = false -> cleanup t = t.
Proof.
  intros Hrun Hs He. unfold cleanup.
  rewrite (replace_ws_runs_id t Hrun). now apply trim_id.
Qed.

End WhiteSpace.

(** ** Literal replacement *)

Section Replace.

Variables pat rep : jsstring.

Lemma starts_with_length s :
  starts_with pat s = true -> (List.length pat <= List.length s)%nat.
Proof.
  revert s. induction pat as [|p pat' IH]; intros s H; [cbn; lia|].
  destruct s as [|c s]; [discriminate|].
  cbn in H. apply andb_true_iff in H as [_ H].
  specialize (IH _ H). cbn. lia.
Qed.

(** A code unit that is not in the pattern stops every match before it. *)
Lemma starts_with_app_sep w a b :
  ~ In w pat -> starts_with pat (a ++ w :: b) = starts_with pat a.
Proof.
  revert a. induction pat as [|p pat' IH]; intros a Hw; [now destruct a|].
  destruct a as [|c a].
  - cbn. destruct (N.eqb_spec p w) as [->|_]; [|reflexivity].
    exfalso. apply Hw. now left.
  - cbn. rewrite IH; [reflexivity|]. intros H. apply Hw. now right.
Qed.

Lemma replace_from_exhaust k s :
  (List.length s <= k)%nat -> replace_from pat rep k s = [].
Proof.
  revert k. induction s as [|c s IH]; intros k Hk; [reflexivity|].
  destruct k as [|k]; [cbn in Hk; lia|].
  cbn. apply IH. cbn in Hk. lia.
Qed.

Lemma In_replace_from x k s :
  In x (replace_from pat rep k s) -> In x s \/ In x rep.
Proof.
  revert k. induction s as [|c s IH]; intros k; [now left|].
  cbn [replace_from]. destruct k as [|k].
  - destruct (starts_with pat (c :: s)).
    + rewrite in_app_iff. intros [H|H]; [now right|].
      destruct (IH _ H); [left; now right | now right].
    + intros [H|H]; [left; now left|].
      destruct (IH _ H); [left; now right | now right].
  - intros H. destruct (IH _ H); [left; now right | now right].
Qed.

Lemma In_replace_all x s :
  In x (replace_all pat rep s) -> In x s \/ In x rep.
Proof.
  unfold replace_all. destruct pat as [|p pat'] eqn:E.
  - rewrite in_app_iff. intros [H|H]; [now right|].
    apply in_flat_map in H as (c & Hc & [<-|H]); auto.
  - rewrite <- E. apply In_replace_from.
Qed.

(** Nothing is replaced in a string where the first code unit of the
    pattern does not occur. *)
Lemma replace_all_absent p pat' s :
  pat = p :: pat' -> ~ In p s -> replace_all pat rep s = s.
Proof.
  intros -> Hp. unfold replace_all.
  induction s as [|c s IH]; [reflexivity|].
  cbn [replace_from starts_with].
  destruct (N.eqb_spec p c) as [->|_].
  - exfalso. apply Hp. now left.
  - cbn [andb]. rewrite IH; [reflexivity|].
    intros H. apply Hp. now right.
Qed.

(** A code unit outside the pattern splits the work in two. *)
Lemma replace_from_split w a b k :
  pat <> [] -> ~ In w pat -> (k <= List.length a)%nat ->
  replace_from pat rep k (a ++ w :: b) =
  replace_from pat rep k a ++ w :: replace_from pat rep 0 b.
Proof.
  intros Hne Hw. revert k. induction a as [|c a IH]; intros k Hk.
  - cbn in Hk. replace k with 0%nat by lia.
    pose proof (starts_with_app_sep w [] b Hw) as Hm. cbn [app] in Hm.
    cbn [app replace_from]. rewrite Hm.
    destruct pat; [congruence | reflexivity].
  - destruct k as [|k].
    + change ((c :: a) ++ w :: b) with (c :: (a ++ w :: b)).
      cbn [replace_from].
      change (c :: (a ++ w :: b)) with ((c :: a) ++ w :: b).
      rewrite (starts_with_app_sep w (c :: a) b Hw).
      destruct (starts_with pat (c :: a)) eqn:Hm.
      * apply starts_with_length in Hm. cbn in Hm.
        rewrite IH by lia. now rewrite app_assoc.
      * rewrite IH by lia. reflexivity.
    + cbn [app replace_from]. apply IH. cbn in Hk. lia.
Qed.

Lemma replace_all_split w a b :
  pat <> [] -> ~ In w pat ->
  replace_all pat rep (a ++ w :: b) =
  replace_all pat rep a ++ w :: replace_all pat rep b.
Proof.
  intros Hne Hw. unfold replace_all.
  destruct pat as [|p pat'] eqn:E; [congruence|]. rewrite <- E in *.
  apply replace_from_split; [assumption | assumption | lia].
Qed.

(** When the replacement text is not empty and has no white space at its
    ends, a string that ends (starts) with something else than white
    space still does after the replacement. *)
Lemma replace_from_ends k a :
  rep <> [] -> ends_with_ws rep = false ->
  (k < List.length a)%nat -> ends_with_ws a = false ->
  replace_from pat rep k a <> [] /\
  ends_with_ws (replace_from pat rep k a) = false.
Proof.
  intros Hrep Hrepws. revert k.
  assert (Hcons : forall c t, t <> [] -> ends_with_ws t = false ->
            c :: t <> [] /\ ends_with_ws (c :: t) = false).
  { intros c t Ht He. split; [discriminate|].
    destruct t; [congruence | exact He]. }
  induction a as [|c a IH]; intros k Hk Ha; [cbn in Hk; lia|].
  cbn [replace_from]. destruct k as [|k].
  - destruct (starts_with pat (c :: a)) eqn:Hm.
    + destruct (Nat.lt_ge_cases (List.length pat - 1) (List.length a))
        as [Hlt|Hge].
      * destruct a as [|d a]; [cbn in Hlt; lia|].
        destruct (IH _ Hlt Ha) as [Hne He]. split.
        -- intros H. apply app_eq_nil in H as [H _]. now apply Hrep.
        -- now rewrite ends_with_ws_app.
      * rewrite (replace_from_exhaust _ _ Hge), app_nil_r. now split.
    + destruct a as [|d a]; [now split|].
      destruct (IH 0%nat) as [Hne He]; [cbn; lia | exact Ha |].
      now apply Hcons.
  - destruct a as [|d a]; [cbn in Hk; lia|].
    apply IH; [cbn in *; lia | exact Ha].
Qed.

Lemma replace_all_ends a :
  pat <> [] -> rep <> [] -> ends_with_ws rep = false ->
  a <> [] -> ends_with_ws a = false ->
  replace_all pat rep a <> [] /\
  ends_with_ws (replace_all pat rep a) = false.
Proof.
  intros Hpat Hrep Hrepws Ha He. unfold replace_all.
  destruct pat as [|p pat'] eqn:E; [congruence|]. rewrite <- E in *.
  apply replace_from_ends; try assumption.
  destruct a; [congruence | cbn; lia].
Qed.

Lemma replace_all_starts b :
  pat <> [] -> rep <> [] -> starts_with_ws rep = false ->
  b <> [] -> starts_with_ws b = false ->
  replace_all pat rep b <> [] /\
  starts_with_ws (replace_all pat rep b) = false.
Proof.
  intros Hpat Hrep Hrepws Hb Hs. unfold replace_all.
  destruct pat as [|p pat'] eqn:E; [congruence|]. rewrite <- E in *.
  destruct b as [|c b]; [congruence|].
  cbn [replace_from]. destruct (starts_with pat (c :: b)).
  - split.
    + intros H. apply app_eq_nil in H as [H _]. now apply Hrep.
    + now rewrite starts_with_ws_app.
  - split; [discriminate | exact Hs].
Qed.

End Replace.

(** A pattern of one code unit: every occurrence goes. *)
Lemma replace_all_single (c : codeunit) (rep s : jsstring) :
  replace_all [c] rep s = flat_map (fun x => if c =? x then rep else [x]) s.
Proof.
  unfold replace_all. induction s as [|x s IH]; [reflexivity|].
  cbn [replace_from starts_with flat_map List.length Nat.sub].
  rewrite andb_true_r. destruct (c =? x); now rewrite IH.
Qed.

Lemma replace_all_single_gone (c : codeunit) (rep s : jsstring) :
  ~ In c rep -> ~ In c (replace_all [c] rep s).
Proof.
  intros Hrep. rewrite replace_all_single.
  intros H. apply in_flat_map in H as (x & _ & H).
  destruct (N.eqb_spec c x) as [->|Hne]; [now apply Hrep|].
  destruct H as [H|[]]. now apply Hne.
Qed.

(** ** Case folding *)

Lemma is_whitespace_iff (c : codeunit) :
  is_whitespace c = true <->
  (9 <= c <= 13 \/ c = 0x20 \/ c = 0xA0 \/ c = 0x1680
   \/ 0x2000 <= c <= 0x200A \/ c = 0x2028 \/ c = 0x2029 \/ c = 0x202F
   \/ c = 0x205F \/ c = 0x3000 \/ c = 0xFEFF).
Proof.
  unfold is_whitespace.
  rewrite !orb_true_iff, !andb_true_iff, !N.leb_le, !N.eqb_eq. tauto.
Qed.

Lemma lower_unit_fixed (c : codeunit) :
  is_ascii_upper c = false -> lower_unit c = c.
Proof. unfold lower_unit, is_ascii_upper. now intros ->. Qed.

Lemma is_ascii_upper_iff (c : codeunit) :
  is_ascii_upper c = true <-> 65 <= c <= 90.
Proof.
  unfold is_ascii_upper. now rewrite andb_true_iff, !N.leb_le.
Qed.

Lemma is_whitespace_lower (c : codeunit) :
  is_whitespace (lower_unit c) = is_whitespace c.
Proof.
  destruct (is_ascii_upper c) eqn:E; [|now rewrite lower_unit_fixed].
  unfold lower_unit. fold (is_ascii_upper c). rewrite E.
  apply is_ascii_upper_iff in E.
  destruct (is_whitespace c) eqn:H1; [apply is_whitespace_iff in H1; lia|].
  destruct (is_whitespace (c + 32)) eqn:H2; [|reflexivity].
  apply is_whitespace_iff in H2; lia.
Qed.

Lemma lower_unit_whitespace (w : codeunit) :
  is_whitespace w = true -> lower_unit w = w.
Proof.
  intros Hw. apply lower_unit_fixed.
  destruct (is_ascii_upper w) eqn:E; [|reflexivity].
  apply is_ascii_upper_iff in E. apply is_whitespace_iff in Hw. lia.
Qed.

Lemma toLowerCase_ends (a : jsstring) :
  ends_with_ws (toLowerCase a) = ends_with_ws a.
Proof.
  destruct a as [|c a]; [reflexivity|].
  assert (Hne : c :: a <> []) by discriminate.
  destruct (exists_last Hne) as (a' & d & ->).
  unfold toLowerCase. rewrite map_app. cbn [map].
  rewrite !ends_with_ws_snoc. apply is_whitespace_lower.
Qed.

Lemma toLowerCase_starts (b : jsstring) :
  starts_with_ws (toLowerCase b) = starts_with_ws b.
Proof.
  destruct b as [|c b]; [reflexivity|].
  cbn [toLowerCase map]. rewrite !starts_with_ws_cons.
  apply is_whitespace_lower.
Qed.

Lemma toLowerCase_split (w : codeunit) (a b : jsstring) :
  is_whitespace w = true ->
  toLowerCase (a ++ w :: b) = toLowerCase a ++ w :: toLowerCase b.
Proof.
  intros Hw. unfold toLowerCase. rewrite map_app. cbn [map].
  now rewrite (lower_unit_whitespace w Hw).
Qed.

Lemma same_ascii_letter_lower (c d : codeunit) :
  same_ascii_letter c d = true -> lower_unit c = lower_unit d.
Proof.
  unfold same_ascii_letter.
  rewrite !orb_true_iff, !andb_true_iff, !N.eqb_eq, !is_ascii_upper_iff.
  unfold lower_unit.
  destruct (N.leb_spec 65 c), (N.leb_spec c 90),
    (N.leb_spec 65 d), (N.leb_spec d 90); cbn [andb]; lia.
Qed.

Lemma same_modulo_ascii_case_lower (s t : jsstring) :
  same_modulo_ascii_case s t = true -> toLowerCase s = toLowerCase t.
Proof.
  revert t. induction s as [|c s IH]; intros [|d t] H; try discriminate.
  - reflexivity.
  - cbn in H. apply andb_true_iff in H as [Hcd H].
    cbn [toLowerCase map]. f_equal.
    + now apply same_ascii_letter_lower.
    + now apply IH.
Qed.

(** ** Rules applied in sequence *)

Lemma rule_wf_spec (r : jsstring * jsstring) :
  rule_wf r = true ->
  fst r <> [] /\ snd r <> []
  /\ (forall w, is_whitespace w = true -> ~ In w (fst r))
  /\ (forall w, is_whitespace w = true -> ~ In w (snd r)).
Proof.
  unfold rule_wf. rewrite !andb_true_iff, !negb_true_iff.
  intros [[[Hk Hkw] Hv] Hvw].
  assert (Hex : forall l w, existsb is_whitespace l = false ->
            is_whitespace w = true -> ~ In w l).
  { intros l w Hl Hw Hin.
    assert (existsb is_whitespace l = true) by (apply existsb_exists; eauto).
    congruence. }
  repeat split.
  - intros E. now rewrite E in Hk.
  - intros E. now rewrite E in Hv.
  - intros w. now apply Hex.
  - intros w. now apply Hex.
Qed.

Lemma rule_wf_ends (r : jsstring * jsstring) :
  rule_wf r = true ->
  starts_with_ws (snd r) = false /\ ends_with_ws (snd r) = false.
Proof.
  intros Hr. destruct (rule_wf_spec r Hr) as (_ & Hv & _ & Hvw).
  split.
  - destruct (snd r) as [|c v]; [congruence|].
    rewrite starts_with_ws_cons.
    destruct (is_whitespace c) eqn:E; [|reflexivity].
    exfalso. apply (Hvw c E). now left.
  - destruct (exists_last Hv) as (v & c & Ev). rewrite Ev in *.
    rewrite ends_with_ws_snoc.
    destruct (is_whitespace c) eqn:E; [|reflexivity].
    exfalso. apply (Hvw c E). apply in_or_app. right. now left.
Qed.

Lemma apply_rules_cons r rules t :
  apply_rules (r :: rules) t =
  apply_rules rules (replace_all (fst r) (snd r) t).
Proof. reflexivity. Qed.

Lemma apply_rules_split rules w a b :
  forallb rule_wf rules = true -> is_whitespace w = true ->
  apply_rules rules (a ++ w :: b) =
  apply_rules rules a ++ w :: apply_rules rules b.
Proof.
  intros Hrules Hw. revert a b.
  induction rules as [|r rules IH]; intros a b; [reflexivity|].
  cbn [forallb] in Hrules. apply andb_true_iff in Hrules as [Hr Hrules].
  destruct (rule_wf_spec r Hr) as (Hk & _ & Hkw & _).
  rewrite !apply_rules_cons.
  rewrite (replace_all_split _ _ w a b Hk (Hkw w Hw)).
  now apply IH.
Qed.

Lemma apply_rules_ends rules a :
  forallb rule_wf rules = true ->
  a <> [] -> ends_with_ws a = false ->
  apply_rules rules a <> [] /\ ends_with_ws (apply_rules rules a) = false.
Proof.
  intros Hrules. revert a.
  induction rules as [|r rules IH]; intros a Ha He; [now split|].
  cbn [forallb] in Hrules. apply andb_true_iff in Hrules as [Hr Hrules].
  destruct (rule_wf_spec r Hr) as (Hk & Hv & _ & _).
  destruct (rule_wf_ends r Hr) as [_ Hve].
  rewrite apply_rules_cons.
  destruct (replace_all_ends _ _ a Hk Hv Hve Ha He) as [Ha' He'].
  now apply IH.
Qed.

Lemma apply_rules_starts rules b :
  forallb rule_wf rules = true ->
  b <> [] -> starts_with_ws b = false ->
  apply_rules rules b <> [] /\ starts_with_ws (apply_rules rules b) = false.
Proof.
  intros Hrules. revert b.
  induction rules as [|r rules IH]; intros b Hb Hs; [now split|].
  cbn [forallb] in Hrules. apply andb_true_iff in Hrules as [Hr Hrules].
  destruct (rule_wf_spec r Hr) as (Hk & Hv & _ & _).
  destruct (rule_wf_ends r Hr) as [Hvs _].
  rewrite apply_rules_cons.
  destruct (replace_all_starts _ _ b Hk Hv Hvs Hb Hs) as [Hb' Hs'].
  now apply IH.
Qed.

Lemma apply_rules_absent rules s :
  (forall r, In r rules ->
     exists p pat', fst r = p :: pat' /\ ~ In p s) ->
  apply_rules rules s = s.
Proof.
  induction rules as [|r rules IH]; intros H; [reflexivity|].
  rewrite apply_rules_cons.
  destruct (H r (or_introl eq_refl)) as (p & pat' & Hk & Hp).
  rewrite (replace_all_absent _ _ p pat' s Hk Hp).
  apply IH. intros r' Hr'. apply H. now right.
Qed.

Lemma multi_rules_wf : forallb rule_wf multi_rules = true.
Proof. reflexivity. Qed.

Lemma single_rules_wf : forallb rule_wf single_rules = true.
Proof. reflexivity. Qed.

(** ** The model at work *)

(** [Object.keys] lists the digit keys first, in numeric order, whatever
    the order they are written in. *)
Example Object_keys_ARABIC_CHAT_MAP :
  Object_keys ARABIC_CHAT_MAP =
  map js [ "2"; "3"; "5"; "6"; "7"; "8"; "9";
           "dh"; "d7"; "sh"; "s5"; "s9"; "d9"; "z7" ]%string.
Proof. reflexivity. Qed.

(** The rules the two loops apply are the ones listed above. *)
Example multi_rules_from_table :
  rules_of
    (Array_sort
       (fun a b => (Z.of_nat (List.length b) - Z.of_nat (List.length a))%Z)
       (filter (fun key => Nat.ltb 1 (List.length key))
          (Object_keys ARABIC_CHAT_MAP)))
  = multi_rules.
Proof. reflexivity. Qed.

Example single_rules_from_table :
  rules_of
    (filter (fun key => Nat.eqb (List.length key) 1)
       (Object_keys ARABIC_CHAT_MAP))
  = single_rules.
Proof. reflexivity. Qed.

(** No replacement text of the table holds a [$], so [replace] inserts each
    of them as it is. *)
Example table_values_without_dollar :
  forallb (fun r => negb (existsb (N.eqb 36) (snd r))) ARABIC_CHAT_MAP = true.
Proof. reflexivity. Qed.

Example normalize_spaces :
  normalizeDarija (JSString (js "  a  b   c ")) = Normal (js "a b c").
Proof. vm_compute. reflexivity. Qed.

(** The third string of the module's self-test. *)
Example normalize_example3 :
  normalizeDarija (JSString (js "ana 8adi nshuf lmadina dyal 's5if'"))
  = Normal (js "ana غadi nشuf lmadina dyal 'صif'").
Proof. vm_compute. reflexivity. Qed.

(** A pattern with a syntax character is outside the literal fragment. *)
Example RegExp_new_not_literal :
  RegExp_new (js "6'") (js "g")
  = Normal {| source := js "6'"; global := true |}
  /\ RegExp_new (js "s+") (js "g") = Throw SyntaxError.
Proof. split; reflexivity. Qed.

(** ** The two scenarios of the module's self-test *)

(** C1 (a defect of the code): applied to
    ["3andi 7ob l dar, 9albi dima fi bladi."] the function returns
    ["عandi حob l dar, قalbi dima fi bladi."]: only the digits 3, 7 and 9
    are replaced and every Latin letter is left.  That is neither the
    all-Arabic text of the claim nor the one the self-test of the module
    announces for this input in its comment ([Expected: ...]). *)
Theorem scenario1_latin_letters_left :
  normalizeDarija (JSString (js "3andi 7ob l dar, 9albi dima fi bladi."))
  = Normal (js "عandi حob l dar, قalbi dima fi bladi.")
  /\ normalizeDarija (JSString (js "3andi 7ob l dar, 9albi dima fi bladi."))
     <> Normal (js "عندي حب ل دار, قلبي ديما في بلادي.")
  /\ normalizeDarija (JSString (js "3andi 7ob l dar, 9albi dima fi bladi."))
     <> Normal (js "عندي حب لدار، قلبي ديما في بلادي.").
Proof.
  split; [vm_compute; reflexivity|].
  split; vm_compute; discriminate.
Qed.

(** C4: [normalizeDarija] applied to ["shkun ghadi ydir 2chghal d9i9a?"]
    returns a string that begins with ["شkun ghadi ydir ءchghal ضiقa?"]
    (and ends there): [sh] becomes ش, [2] becomes ء, [d9] becomes ض before
    the remaining [9] becomes ق, and the other Latin letters, [ghadi]
    among them, are kept. *)
Theorem scenario2_prefix :
  exists rest,
    normalizeDarija (JSString (js "shkun ghadi ydir 2chghal d9i9a?"))
    = Normal (js "شkun ghadi ydir ءchghal ضiقa?" ++ rest)
    /\ rest = [].
Proof. exists []. split; [vm_compute|]; reflexivity. Qed.

(** ** Precedence of the keys of several code units *)

Ltac table_entry H :=
  repeat match type of H with
    | _ \/ _ => destruct H as [H|H]
    | (_, _) = (_, _) => injection H as <- <-
    | False => destruct H
    end.

(** C2: for every key of the table of more than one code unit that
    contains a key of one code unit, [normalizeDarija] applied to the text
    of the key returns the replacement of the long key, and not the text in
    which only the short key has been replaced; so ["d7"] gives ["ظ"] and
    not ["dح"]. *)
Theorem multi_char_precedence (key value k1 v1 pre post : jsstring) :
  In (key, value) ARABIC_CHAT_MAP -> (1 < List.length key)%nat ->
  In (k1, v1) ARABIC_CHAT_MAP -> List.length k1 = 1%nat ->
  key = pre ++ k1 ++ post ->
  normalizeDarija (JSString key) = Normal value
  /\ normalizeDarija (JSString key) <> Normal (pre ++ v1 ++ post).
Proof.
  intros Hkey Hlen Hk1 Hlen1 Hsplit.
  cbv [ARABIC_CHAT_MAP In] in Hkey, Hk1.
  table_entry Hkey; try (vm_compute in Hlen; lia);
    (split; [vm_compute; reflexivity|]);
    table_entry Hk1; try (vm_compute in Hlen1; discriminate);
    vm_compute in Hsplit;
    destruct pre as [|p0 [|p1 [|p2 pre]]]; try discriminate Hsplit;
    destruct post as [|q0 [|q1 post]]; try discriminate Hsplit;
    inversion Hsplit; subst; vm_compute; discriminate.
Qed.

Lemma multi_char_precedence_d7 :
  normalizeDarija (JSString (js "d7")) = Normal (js "ظ")
  /\ normalizeDarija (JSString (js "d7")) <> Normal (js "d" ++ js "ح" ++ []).
Proof.
  apply (multi_char_precedence (js "d7") (js "ظ") (js "7") (js "ح")
           (js "d") []).
  - vm_compute. tauto.
  - vm_compute. lia.
  - vm_compute. tauto.
  - reflexivity.
  - reflexivity.
Defined.

(** ** Inputs that are not text *)

(** C3: for every input that is not a string (null, undefined, a number,
    an object, ...) and for the empty string, [normalizeDarija] returns the
    empty string and does not raise. *)
Theorem not_a_string_gives_empty (v : JSValue) :
  (forall s, v = JSString s -> s = []) ->
  normalizeDarija v = Normal [].
Proof.
  intros Hv. destruct v as [| |b|x|z|s|id|ref|ref].
  - reflexivity.
  - reflexivity.
  - now destruct b.
  - now destruct x.
  - now destruct z.
  - now rewrite (Hv s eq_refl).
  - reflexivity.
  - reflexivity.
  - reflexivity.
Qed.

Lemma not_a_string_gives_empty_null :
  normalizeDarija JSNull = Normal []
  /\ normalizeDarija JSUndefined = Normal []
  /\ normalizeDarija (JSNumber (S754_finite false 21 1)) = Normal []
  /\ normalizeDarija (JSObject 0) = Normal []
  /\ normalizeDarija (JSString []) = Normal [].
Proof.
  assert (Hnull : forall s, JSNull = JSString s -> s = [])
    by (intros s Hs; discriminate Hs).
  assert (Hundef : forall s, JSUndefined = JSString s -> s = [])
    by (intros s Hs; discriminate Hs).
  assert (Hnum : forall s,
            JSNumber (S754_finite false 21 1) = JSString s -> s = [])
    by (intros s Hs; discriminate Hs).
  assert (Hobj : forall s, JSObject 0 = JSString s -> s = [])
    by (intros s Hs; discriminate Hs).
  assert (Hstr : forall s, JSString [] = JSString s -> s = [])
    by (intros s Hs; now injection Hs as <-).
  exact (conj (not_a_string_gives_empty _ Hnull)
           (conj (not_a_string_gives_empty _ Hundef)
              (conj (not_a_string_gives_empty _ Hnum)
                 (conj (not_a_string_gives_empty _ Hobj)
                    (not_a_string_gives_empty _ Hstr))))).
Defined.

(** ** Every string is normalized *)

Lemma normalizeDarija_string (s : jsstring) :
  normalizeDarija (JSString s) =
  Normal (match s with
          | [] => []
          | _ :: _ => cleanup (substitute (toLowerCase s))
          end).
Proof. destruct s; [reflexivity | apply normalizeDarija_cons]. Qed.

(** C7: for every string input, the empty string included,
    [normalizeDarija] returns a string and never raises. *)
Theorem normalizeDarija_total (s : jsstring) :
  exists r, normalizeDarija (JSString s) = Normal r.
Proof. rewrite normalizeDarija_string. eauto. Qed.

(** C5: for every string input, the string [normalizeDarija] returns has no
    two adjacent white space characters and no white space at its start or
    at its end. *)
Theorem output_whitespace_tidy (s : jsstring) :
  exists r,
    normalizeDarija (JSString s) = Normal r
    /\ has_ws_run r = false
    /\ starts_with_ws r = false
    /\ ends_with_ws r = false.
Proof.
  rewrite normalizeDarija_string. eexists. split; [reflexivity|].
  destruct s; [now repeat split | apply cleanup_tidy].
Qed.

(** ** Case *)

(** C6: [normalizeDarija] returns ["ش"] on ["SH"] and on ["sh"]; in
    general the input is lowered before any replacement, so two inputs
    that differ in the case of ASCII letters only have the same result. *)
Theorem ascii_case_insensitive :
  (normalizeDarija (JSString (js "SH")) = Normal (js "ش")
   /\ normalizeDarija (JSString (js "sh")) = Normal (js "ش"))
  /\ (forall s t,
        same_modulo_ascii_case s t = true ->
        normalizeDarija (JSString s) = normalizeDarija (JSString t)).
Proof.
  split; [split; vm_compute; reflexivity|].
  intros s t Hst. rewrite !normalizeDarija_string.
  rewrite (same_modulo_ascii_case_lower s t Hst).
  destruct s, t; try discriminate Hst; reflexivity.
Qed.

Lemma ascii_case_insensitive_Shkun :
  same_modulo_ascii_case (js "ShKuN D7") (js "sHkUn d7") = true
  /\ normalizeDarija (JSString (js "ShKuN D7"))
     = normalizeDarija (JSString (js "sHkUn d7")).
Proof.
  split; [reflexivity|].
  apply (proj2 ascii_case_insensitive). reflexivity.
Defined.

(** ** Text that is already Arabic *)

Lemma is_arabic_script_iff (c : codeunit) :
  is_arabic_script c = true <->
  (0x0600 <= c <= 0x06FF \/ 0x0750 <= c <= 0x077F \/ 0x0870 <= c <= 0x08FF
   \/ 0xFB50 <= c <= 0xFDFF \/ 0xFE70 <= c <= 0xFEFC).
Proof.
  unfold is_arabic_script.
  rewrite !orb_true_iff, !andb_true_iff, !N.leb_le. tauto.
Qed.

(** Every key of the table starts with an ASCII letter or digit. *)
Lemma rules_head_ascii (r : jsstring * jsstring) :
  In r (multi_rules ++ single_rules) ->
  exists p pat', fst r = p :: pat' /\ 48 <= p <= 122.
Proof.
  intros H. vm_compute in H.
  repeat (destruct H as [<-|H];
          [eexists; eexists; split; [reflexivity | lia]|]).
  destruct H.
Qed.

Lemma arabic_or_space_inert (s : jsstring) :
  forallb (fun c => is_arabic_script c || (c =? 32)) s = true ->
  toLowerCase s = s /\ forall p, 48 <= p <= 122 -> ~ In p s.
Proof.
  intros Hs. rewrite forallb_forall in Hs.
  assert (Hx : forall x, In x s -> 0x0600 <= x \/ x = 32).
  { intros x Hx. specialize (Hs x Hx).
    apply orb_true_iff in Hs as [Hs|Hs].
    - apply is_arabic_script_iff in Hs. lia.
    - apply N.eqb_eq in Hs. now right. }
  split.
  - unfold toLowerCase. rewrite <- (map_id s) at 2.
    apply map_ext_in. intros x Hin. apply lower_unit_fixed.
    destruct (is_ascii_upper x) eqn:E; [|reflexivity].
    apply is_ascii_upper_iff in E. specialize (Hx x Hin). lia.
  - intros p Hp Hin. specialize (Hx p Hin). lia.
Qed.

(** C8: a string made of Arabic-script characters and single spaces
    between them, with no white space at its start or end, is returned as
    it is. *)
Theorem arabic_text_unchanged (s : jsstring) :
  arabic_single_spaced s = true ->
  normalizeDarija (JSString s) = Normal s.
Proof.
  unfold arabic_single_spaced.
  rewrite !andb_true_iff, !negb_true_iff.
  intros [[[Hall Hrun] Hstart] Hend].
  rewrite normalizeDarija_string. destruct s as [|c s]; [reflexivity|].
  destruct (arabic_or_space_inert _ Hall) as [Hlow Hinert].
  rewrite Hlow. unfold substitute.
  assert (Hrules : forall rules, incl rules (multi_rules ++ single_rules) ->
            apply_rules rules (c :: s) = c :: s).
  { intros rules Hincl. apply apply_rules_absent. intros r Hr.
    destruct (rules_head_ascii r (Hincl r Hr)) as (p & pat' & Hk & Hp).
    exists p, pat'. split; [exact Hk | now apply Hinert]. }
  rewrite (Hrules multi_rules) by (apply incl_appl, incl_refl).
  rewrite (Hrules single_rules) by (apply incl_appr, incl_refl).
  now rewrite cleanup_id.
Qed.

Lemma arabic_text_unchanged_shkun :
  arabic_single_spaced (js "شكون غادي يدير") = true
  /\ normalizeDarija (JSString (js "شكون غادي يدير"))
     = Normal (js "شكون غادي يدير").
Proof.
  split; [reflexivity|].
  apply arabic_text_unchanged. reflexivity.
Defined.

(** ** The digits of the table *)

Lemma apply_rules_clear (K : jsstring) (rules : list (jsstring * jsstring)) :
  (forall r, In r rules ->
     exists c, fst r = [c] /\ forall x, In x (snd r) -> ~ In x K) ->
  forall t d, In d K ->
    In [d] (map fst rules) \/ ~ In d t ->
    ~ In d (apply_rules rules t).
Proof.
  induction rules as [|r rules IH]; intros Hrules t d Hd Hcase.
  - destruct Hcase as [[]|H]. exact H.
  - rewrite apply_rules_cons.
    destruct (Hrules r (or_introl eq_refl)) as (c & Hk & Hv).
    apply IH; [intros r' Hr'; apply Hrules; now right | exact Hd |].
    rewrite Hk. cbn [map In] in Hcase. rewrite Hk in Hcase.
    destruct Hcase as [[Hc|Hin]|Hnot].
    + right. injection Hc as ->. apply replace_all_single_gone.
      intros Hin. exact (Hv d Hin Hd).
    + now left.
    + right. intros Hin. apply In_replace_all in Hin as [Hin|Hin].
      * now apply Hnot.
      * exact (Hv d Hin Hd).
Qed.

Lemma single_rules_clear (t : jsstring) (d : codeunit) :
  In d digit_keys -> ~ In d (apply_rules single_rules t).
Proof.
  intros Hd. apply (apply_rules_clear digit_keys); [|exact Hd|].
  - intros r Hr. vm_compute in Hr.
    repeat (destruct Hr as [<-|Hr];
            [eexists; split; [reflexivity|];
             intros x Hx Hk; vm_compute in Hx, Hk;
             destruct Hx as [<-|[]];
             repeat (destruct Hk as [Hk|Hk]; [discriminate Hk|]);
             exact Hk|]).
    destruct Hr.
  - left. vm_compute in Hd.
    repeat (destruct Hd as [<-|Hd]; [vm_compute; tauto|]).
    destruct Hd.
Qed.

(** C9: for every string input, none of the characters 2, 3, 5, 6, 7, 8
    and 9 occurs in the string [normalizeDarija] returns. *)
Theorem output_has_no_table_digit (s : jsstring) :
  exists r,
    normalizeDarija (JSString s) = Normal r
    /\ forall d, In d (js "2356789") -> ~ In d r.
Proof.
  rewrite normalizeDarija_string. eexists. split; [reflexivity|].
  intros d Hd. destruct s as [|c s]; [intros []|].
  intros Hin. unfold cleanup in Hin.
  apply In_trim, In_replace_ws_runs in Hin. destruct Hin as [Hin|Hin].
  - revert Hin. now apply single_rules_clear.
  - vm_compute in Hd, Hin. destruct Hin as [<-|[]].
    repeat (destruct Hd as [Hd|Hd]; [discriminate Hd|]). exact Hd.
Qed.

Lemma output_has_no_table_digit_d7 :
  exists r,
    normalizeDarija (JSString (js "7ob 9albi 2356789")) = Normal r
    /\ ~ In 55 r /\ ~ In 57 r.
Proof.
  destruct (output_has_no_table_digit (js "7ob 9albi 2356789"))
    as (r & Hr & Hd).
  exists r. split; [exact Hr|].
  split; apply Hd; vm_compute; tauto.
Defined.

(** ** A white space character on its own *)

Lemma replace_ws_runs_cons (rep : jsstring) (b : bool) (c : codeunit)
  (s : jsstring) :
  replace_ws_runs rep b (c :: s) =
  if is_whitespace c then
    if b then replace_ws_runs rep true s
    else
      match s with
      | d :: _ =>
          if is_whitespace d then rep ++ replace_ws_runs rep true s
          else c :: replace_ws_runs rep false s
      | [] => [c]
      end
  else c :: replace_ws_runs rep false s.
Proof. reflexivity. Qed.

Lemma trimStart_cons (c : codeunit) (s : jsstring) :
  trimStart (c :: s) = if is_whitespace c then trimStart s else c :: s.
Proof. reflexivity. Qed.

Section LoneWhiteSpace.

#[local] Arguments is_whitespace : simpl never.

Variables (x y : jsstring) (w : codeunit).
Hypothesis x_not_empty : x <> [].
Hypothesis x_end : ends_with_ws x = false.
Hypothesis w_ws : is_whitespace w = true.
Hypothesis y_not_empty : y <> [].
Hypothesis y_start : starts_with_ws y = false.

Lemma replace_ws_runs_ends rep b :
  replace_ws_runs rep b x <> []
  /\ ends_with_ws (replace_ws_runs rep b x) = false.
Proof.
  clear w_ws y_not_empty y_start. revert b.
  assert (Hcons : forall pre t, t <> [] -> ends_with_ws t = false ->
            pre ++ t <> [] /\ ends_with_ws (pre ++ t) = false).
  { intros pre t Ht He. split; [|now rewrite ends_with_ws_app].
    intros H. apply app_eq_nil in H as [_ H]. now apply Ht. }
  induction x as [|c s IH]; intros b; [congruence|].
  destruct s as [|d s].
  - change (ends_with_ws [c]) with (is_whitespace c) in x_end.
    cbn [replace_ws_runs]. rewrite x_end. split; [discriminate|exact x_end].
  - specialize (IH ltac:(discriminate) x_end).
    rewrite (replace_ws_runs_cons rep b c (d :: s)). cbv beta iota.
    destruct (is_whitespace c).
    + destruct b; [apply IH|].
      destruct (is_whitespace d).
      * destruct (IH true). now apply Hcons.
      * destruct (IH false). now apply (Hcons [c]).
    + destruct (IH false). now apply (Hcons [c]).
Qed.

Lemma replace_ws_runs_starts rep :
  replace_ws_runs rep false y <> []
  /\ starts_with_ws (replace_ws_runs rep false y) = false.
Proof.
  destruct y as [|d s]; [congruence|].
  rewrite starts_with_ws_cons in y_start.
  rewrite replace_ws_runs_cons, y_start.
  split; [discriminate | now rewrite starts_with_ws_cons].
Qed.

Lemma replace_ws_runs_split rep b :
  replace_ws_runs rep b (x ++ w :: y) =
  replace_ws_runs rep b x ++ w :: replace_ws_runs rep false y.
Proof.
  revert b. induction x as [|c s IH]; intros b; [congruence|].
  destruct s as [|d s].
  - change (ends_with_ws [c]) with (is_whitespace c) in x_end.
    destruct y as [|e t] eqn:Ey; [congruence|].
    rewrite starts_with_ws_cons in y_start.
    change ([c] ++ w :: e :: t) with (c :: w :: e :: t).
    rewrite (replace_ws_runs_cons rep b c), x_end.
    rewrite (replace_ws_runs_cons rep false w), w_ws, y_start.
    rewrite (replace_ws_runs_cons rep b c []), x_end. reflexivity.
  - specialize (IH ltac:(discriminate) x_end).
    change ((c :: d :: s) ++ w :: y) with (c :: ((d :: s) ++ w :: y)).
    rewrite (replace_ws_runs_cons rep b c ((d :: s) ++ w :: y)).
    rewrite (replace_ws_runs_cons rep b c (d :: s)).
    rewrite !IH. cbn [app]. cbv beta iota.
    destruct (is_whitespace c); [|reflexivity].
    destruct b; [reflexivity|].
    destruct (is_whitespace d); [|reflexivity].
    now rewrite app_assoc.
Qed.

Lemma trimStart_app z : trimStart (x ++ z) = trimStart x ++ z.
Proof.
  clear w_ws y_not_empty y_start.
  induction x as [|c s IH]; [congruence|].
  destruct s as [|d s].
  - change (ends_with_ws [c]) with (is_whitespace c) in x_end.
    change ([c] ++ z) with (c :: z).
    now rewrite !trimStart_cons, x_end.
  - specialize (IH ltac:(discriminate) x_end).
    change ((c :: d :: s) ++ z) with (c :: ((d :: s) ++ z)).
    rewrite (trimStart_cons c ((d :: s) ++ z)).
    rewrite (trimStart_cons c (d :: s)), IH.
    now destruct (is_whitespace c).
Qed.

Lemma trimStart_ends :
  trimStart x <> [] /\ ends_with_ws (trimStart x) = false.
Proof.
  clear w_ws y_not_empty y_start.
  induction x as [|c s IH]; [congruence|].
  destruct s as [|d s].
  - change (ends_with_ws [c]) with (is_whitespace c) in x_end.
    rewrite trimStart_cons, x_end. split; [discriminate | exact x_end].
  - specialize (IH ltac:(discriminate) x_end).
    rewrite (trimStart_cons c (d :: s)).
    destruct (is_whitespace c); [exact IH|].
    split; [discriminate | exact x_end].
Qed.

End LoneWhiteSpace.

Lemma trimEnd_app (u y : jsstring) :
  y <> [] -> starts_with_ws y = false ->
  trimEnd (u ++ y) = u ++ trimEnd y.
Proof.
  intros Hy Hs. unfold trimEnd. rewrite rev_app_distr.
  rewrite trimStart_app.
  - now rewrite rev_app_distr, rev_involutive.
  - intros H. apply Hy. now rewrite <- (rev_involutive y), H.
  - now rewrite ends_with_ws_rev.
Qed.

Lemma trimEnd_starts (y : jsstring) :
  y <> [] -> starts_with_ws y = false ->
  trimEnd y <> [] /\ starts_with_ws (trimEnd y) = false.
Proof.
  intros Hy Hs. unfold trimEnd.
  destruct (trimStart_ends (rev y)) as [Hne He].
  - intros H. apply Hy. now rewrite <- (rev_involutive y), H.
  - now rewrite ends_with_ws_rev.
  - split; [|now rewrite starts_with_ws_rev].
    intros H. apply Hne. now rewrite <- (rev_involutive (trimStart _)), H.
Qed.

Lemma cleanup_split (x y : jsstring) (w : codeunit) :
  x <> [] -> ends_with_ws x = false -> is_whitespace w = true ->
  y <> [] -> starts_with_ws y = false ->
  cleanup (x ++ w :: y) = cleanup x ++ w :: cleanup y
  /\ (cleanup x <> [] /\ ends_with_ws (cleanup x) = false)
  /\ (cleanup y <> [] /\ starts_with_ws (cleanup y) = false).
Proof.
  intros Hx Hxe Hw Hy Hys. unfold cleanup, trim.
  destruct (replace_ws_runs_ends x Hx Hxe (js " ") false) as [Hx' Hxe'].
  destruct (replace_ws_runs_starts y Hy Hys (js " ")) as [Hy' Hys'].
  destruct (trimStart_ends _ Hx' Hxe') as [Hx'' Hxe''].
  destruct (trimEnd_starts _ Hy' Hys') as [Hy'' Hys''].
  rewrite (replace_ws_runs_split x y w Hx Hxe Hw Hy Hys).
  rewrite (trimStart_app _ Hx' Hxe').
  rewrite (trimEnd_id _ Hxe''), (trimStart_id _ Hys').
  split; [|now split].
  change (w :: replace_ws_runs (js " ") false y)
    with ([w] ++ replace_ws_runs (js " ") false y).
  rewrite app_assoc, (trimEnd_app _ _ Hy' Hys').
  now rewrite <- app_assoc.
Qed.

Lemma substitute_split (a b : jsstring) (w : codeunit) :
  is_whitespace w = true ->
  substitute (a ++ w :: b) = substitute a ++ w :: substitute b.
Proof.
  intros Hw. unfold substitute.
  rewrite (apply_rules_split _ w a b multi_rules_wf Hw).
  now rewrite (apply_rules_split _ w _ _ single_rules_wf Hw).
Qed.

(** C10, as stated: a single white space character that has no white
    space next to it is not always kept: when it is the first character of
    the input, [trim] removes it.  Here a tab before ["sh"] is lost. *)
Lemma lone_leading_whitespace_dropped :
  ends_with_ws [] = false /\ is_whitespace 9 = true
  /\ starts_with_ws (js "sh") = false
  /\ ~ exists a' b',
        normalizeDarija (JSString ([] ++ 9 :: js "sh"))
        = Normal (a' ++ 9 :: b').
Proof.
  split; [reflexivity|]. split; [reflexivity|]. split; [reflexivity|].
  intros (a' & b' & H). vm_compute in H.
  destruct a' as [|x [|y a']]; discriminate H.
Qed.

(** C10, amended: a white space character with no white space next to it
    and text on both sides is kept as it is (a tab stays a tab, a line
    feed a line feed): the result is some text, that same character, and
    some text, with no white space next to it.  The white space of the two
    texts is that of the results for the text before the character and for
    the text after it, and for input of ASCII, white space and
    Arabic-script characters the two texts are those results. *)
Theorem lone_whitespace_kept (a b : jsstring) (w : codeunit) :
  a <> [] -> ends_with_ws a = false ->
  is_whitespace w = true ->
  b <> [] -> starts_with_ws b = false ->
  exists a' b' ra rb,
    normalizeDarija (JSString (a ++ w :: b)) = Normal (a' ++ w :: b')
    /\ (a' <> [] /\ ends_with_ws a' = false)
    /\ (b' <> [] /\ starts_with_ws b' = false)
    /\ normalizeDarija (JSString a) = Normal ra
    /\ normalizeDarija (JSString b) = Normal rb
    /\ filter is_whitespace a' = filter is_whitespace ra
    /\ filter is_whitespace b' = filter is_whitespace rb
    /\ (plain_text a = true -> plain_text b = true -> a' = ra /\ b' = rb).
Proof.
  intros Ha Hae Hw Hb Hbs.
  assert (HA : substitute (toLowerCase a) <> []
               /\ ends_with_ws (substitute (toLowerCase a)) = false).
  { unfold substitute.
    apply (apply_rules_ends _ _ single_rules_wf);
      apply (apply_rules_ends _ _ multi_rules_wf).
    - destruct a; [congruence | discriminate].
    - now rewrite toLowerCase_ends.
    - destruct a; [congruence | discriminate].
    - now rewrite toLowerCase_ends. }
  assert (HB : substitute (toLowerCase b) <> []
               /\ starts_with_ws (substitute (toLowerCase b)) = false).
  { unfold substitute.
    apply (apply_rules_starts _ _ single_rules_wf);
      apply (apply_rules_starts _ _ multi_rules_wf).
    - destruct b; [congruence | discriminate].
    - now rewrite toLowerCase_starts.
    - destruct b; [congruence | discriminate].
    - now rewrite toLowerCase_starts. }
  destruct HA as [HA HAe], HB as [HB HBs].
  destruct (cleanup_split _ _ w HA HAe Hw HB HBs) as (Hsplit & Ha' & Hb').
  exists (cleanup (substitute (toLowerCase a))),
         (cleanup (substitute (toLowerCase b))),
         (cleanup (substitute (toLowerCase a))),
         (cleanup (substitute (toLowerCase b))).
  rewrite !normalizeDarija_string.
  rewrite (toLowerCase_split w a b Hw), (substitute_split _ _ w Hw), Hsplit.
  destruct a as [|c a]; [congruence|]. destruct b as [|d b]; [congruence|].
  split; [reflexivity|]. split; [exact Ha'|]. split; [exact Hb'|].
  do 4 (split; [reflexivity|]). intros _ _. now split.
Qed.

Lemma lone_whitespace_kept_tab :
  exists a' b' ra rb,
    normalizeDarija (JSString (js "sh" ++ 9 :: js "d7"))
    = Normal (a' ++ 9 :: b')
    /\ (a' <> [] /\ ends_with_ws a' = false)
    /\ (b' <> [] /\ starts_with_ws b' = false)
    /\ normalizeDarija (JSString (js "sh")) = Normal ra
    /\ normalizeDarija (JSString (js "d7")) = Normal rb
    /\ filter is_whitespace a' = filter is_whitespace ra
    /\ filter is_whitespace b' = filter is_whitespace rb
    /\ (plain_text (js "sh") = true -> plain_text (js "d7") = true ->
        a' = ra /\ b' = rb).
Proof.
  apply lone_whitespace_kept.
  - discriminate.
  - reflexivity.
  - reflexivity.
  - discriminate.
  - reflexivity.
Defined.

(** * Further properties of the substitution engine *)

(** ** Occurrences of a pattern *)

Lemma jsstring_eqb_eq (s t : jsstring) : jsstring_eqb s t = true <-> s = t.
Proof.
  revert t. induction s as [|c s IH]; intros [|d t]; cbn;
    try (split; [discriminate | congruence]); [tauto|].
  rewrite andb_true_iff, N.eqb_eq, IH. split.
  - now intros [-> ->].
  - intros H. now injection H.
Qed.

Lemma occurs_cons (pat : jsstring) (c : codeunit) (s : jsstring) :
  occurs pat (c :: s) = starts_with pat (c :: s) || occurs pat s.
Proof. reflexivity. Qed.

Lemma occurs_nil (pat : jsstring) : pat <> [] -> occurs pat [] = false.
Proof. destruct pat; [congruence | reflexivity]. Qed.

Lemma starts_with_app_l (pat a b : jsstring) :
  starts_with pat a = true -> starts_with pat (a ++ b) = true.
Proof.
  revert a. induction pat as [|p pat IH]; intros a H; [reflexivity|].
  destruct a as [|c a]; [discriminate|].
  cbn in *. apply andb_true_iff in H as [-> H]. now apply IH.
Qed.

Lemma starts_with_foreign (pat : jsstring) (x : codeunit) (s : jsstring) :
  pat <> [] -> ~ In x pat -> starts_with pat (x :: s) = false.
Proof.
  intros Hne Hx. destruct pat as [|p pat]; [congruence|].
  cbn. destruct (N.eqb_spec p x) as [->|_]; [|reflexivity].
  exfalso. apply Hx. now left.
Qed.

(** An occurrence cannot start inside text that is foreign to the
    pattern. *)
Lemma occurs_app_foreign (pat rep s : jsstring) :
  pat <> [] -> (forall x, In x rep -> ~ In x pat) ->
  occurs pat (rep ++ s) = occurs pat s.
Proof.
  intros Hne Hrep. induction rep as [|x rep IH]; [reflexivity|].
  change ((x :: rep) ++ s) with (x :: (rep ++ s)).
  rewrite occurs_cons, starts_with_foreign; [|assumption|].
  - apply IH. intros y Hy. apply Hrep. now right.
  - apply Hrep. now left.
Qed.

Lemma occurs_app_r (pat a b : jsstring) :
  occurs pat (a ++ b) = false -> occurs pat b = false.
Proof.
  induction a as [|c a IH]; [easy|].
  change ((c :: a) ++ b) with (c :: (a ++ b)). rewrite occurs_cons.
  intros H. apply orb_false_iff in H as [_ H]. now apply IH.
Qed.

Lemma occurs_app_l (pat a b : jsstring) :
  pat <> [] -> occurs pat (a ++ b) = false -> occurs pat a = false.
Proof.
  intros Hne. induction a as [|c a IH]; [intros _; now apply occurs_nil|].
  change ((c :: a) ++ b) with (c :: (a ++ b)). rewrite !occurs_cons.
  intros H. apply orb_false_iff in H as [Hs H].
  rewrite (IH H), orb_false_r.
  destruct (starts_with pat (c :: a)) eqn:E; [|reflexivity].
  apply (starts_with_app_l _ _ b) in E.
  change ((c :: a) ++ b) with (c :: (a ++ b)) in E. congruence.
Qed.

Lemma replace_all_no_match (pat rep s : jsstring) :
  pat <> [] -> occurs pat s = false -> replace_all pat rep s = s.
Proof.
  intros Hne. unfold replace_all.
  destruct pat as [|p pat'] eqn:E; [congruence|]. rewrite <- E. clear E Hne.
  induction s as [|c s IH]; [reflexivity|].
  rewrite occurs_cons. intros H. apply orb_false_iff in H as [Hs H].
  cbn [replace_from]. rewrite Hs. now rewrite (IH H).
Qed.

Section ReplaceOccurrences.

Variables pat rep : jsstring.
Hypothesis rep_not_empty : rep <> [].

(** What the result starts with, when it has no code unit of the
    replacement text, the string started with already. *)
Lemma starts_with_replace_from (q s : jsstring) :
  (forall x, In x rep -> ~ In x q) ->
  starts_with q (replace_from pat rep 0 s) = true ->
  starts_with q s = true.
Proof.
  revert s. induction q as [|x q IH]; intros s Hq H; [reflexivity|].
  destruct s as [|c s]; [discriminate H|].
  cbn [replace_from] in H.
  destruct (starts_with pat (c :: s)).
  - destruct rep as [|y rep']; [congruence|].
    cbn in H. apply andb_true_iff in H as [H _].
    apply N.eqb_eq in H. subst y.
    exfalso. apply (Hq x); now left.
  - cbn in H. apply andb_true_iff in H as [Hc H].
    cbn. rewrite Hc. cbn [andb]. apply IH; [|exact H].
    intros y Hy Hin. apply (Hq y Hy). now right.
Qed.

Lemma starts_with_cons_replace_from (q : jsstring) (c : codeunit)
  (s : jsstring) :
  (forall x, In x rep -> ~ In x q) ->
  starts_with q (c :: s) = false ->
  starts_with q (c :: replace_from pat rep 0 s) = false.
Proof.
  intros Hq Hs. destruct q as [|x q]; [discriminate Hs|].
  destruct (starts_with (x :: q) (c :: replace_from pat rep 0 s)) eqn:E;
    [|reflexivity].
  cbn in E, Hs. apply andb_true_iff in E as [Hc E]. rewrite Hc in Hs.
  cbn [andb] in Hs.
  rewrite starts_with_replace_from in Hs; [discriminate| |exact E].
  intros y Hy Hin. apply (Hq y Hy). now right.
Qed.

(** Replacing [pat] creates no occurrence of a pattern that the
    replacement text is foreign to. *)
Lemma replace_from_keeps_absent (q : jsstring) (k : nat) (s : jsstring) :
  q <> [] -> (forall x, In x rep -> ~ In x q) ->
  occurs q s = false -> occurs q (replace_from pat rep k s) = false.
Proof.
  intros Hne Hq. revert k. induction s as [|c s IH]; intros k Hs.
  - now apply occurs_nil.
  - rewrite occurs_cons in Hs. apply orb_false_iff in Hs as [Hc Hs].
    cbn [replace_from]. destruct k as [|k]; [|now apply IH].
    destruct (starts_with pat (c :: s)).
    + rewrite occurs_app_foreign by assumption. now apply IH.
    + rewrite occurs_cons, (IH 0%nat Hs), orb_false_r.
      now apply starts_with_cons_replace_from.
Qed.

(** After the replacement [pat] itself occurs no more. *)
Lemma replace_from_clears (k : nat) (s : jsstring) :
  pat <> [] -> (forall x, In x rep -> ~ In x pat) ->
  occurs pat (replace_from pat rep k s) = false.
Proof.
  intros Hne Hq. revert k. induction s as [|c s IH]; intros k.
  - now apply occurs_nil.
  - cbn [replace_from]. destruct k as [|k]; [|now apply IH].
    destruct (starts_with pat (c :: s)) eqn:E.
    + rewrite occurs_app_foreign by assumption. now apply IH.
    + rewrite occurs_cons, (IH 0%nat), orb_false_r.
      now apply starts_with_cons_replace_from.
Qed.

End ReplaceOccurrences.

Lemma replace_all_clears (pat rep s : jsstring) :
  pat <> [] -> rep <> [] -> (forall x, In x rep -> ~ In x pat) ->
  occurs pat (replace_all pat rep s) = false.
Proof.
  intros Hpat Hrep Hf. unfold replace_all.
  destruct pat as [|p pat'] eqn:E; [congruence|]. rewrite <- E in *.
  now apply replace_from_clears.
Qed.

Lemma replace_all_keeps_absent (pat rep q s : jsstring) :
  pat <> [] -> rep <> [] -> q <> [] -> (forall x, In x rep -> ~ In x q) ->
  occurs q s = false -> occurs q (replace_all pat rep s) = false.
Proof.
  intros Hpat Hrep Hq Hf Hs. unfold replace_all.
  destruct pat as [|p pat'] eqn:E; [congruence|]. rewrite <- E in *.
  now apply replace_from_keeps_absent.
Qed.

(** ** Occurrences through a sequence of rules *)

Lemma apply_rules_app (r1 r2 : list (jsstring * jsstring)) (t : jsstring) :
  apply_rules (r1 ++ r2) t = apply_rules r2 (apply_rules r1 t).
Proof. unfold apply_rules. apply fold_left_app. Qed.

Lemma In_apply_rules (rules : list (jsstring * jsstring)) (x : codeunit)
  (t : jsstring) :
  In x (apply_rules rules t) ->
  In x t \/ exists r, In r rules /\ In x (snd r).
Proof.
  revert t. induction rules as [|r rules IH]; intros t H; [now left|].
  rewrite apply_rules_cons in H. apply IH in H as [H|(r' & Hr' & Hx)].
  - apply In_replace_all in H as [H|H]; [now left|].
    right. exists r. split; [now left | exact H].
  - right. exists r'. split; [now right | exact Hx].
Qed.

(** When no replacement text shares a code unit with a key of [K], the
    keys of the rules are gone after the rules have been applied, and no
    key of [K] has appeared. *)
Lemma apply_rules_clears (K : list jsstring)
  (rules : list (jsstring * jsstring)) :
  (forall r, In r rules ->
     fst r <> [] /\ snd r <> []
     /\ forall key, In key K -> forall x, In x (snd r) -> ~ In x key) ->
  forall t key, In key K -> key <> [] ->
    In key (map fst rules) \/ occurs key t = false ->
    occurs key (apply_rules rules t) = false.
Proof.
  induction rules as [|r rules IH]; intros Hrules t key HK Hne Hcase.
  - destruct Hcase as [[]|H]. exact H.
  - rewrite apply_rules_cons.
    destruct (Hrules r (or_introl eq_refl)) as (Hk & Hv & Hf).
    apply IH; [intros r' Hr'; apply Hrules; now right | exact HK
              | exact Hne |].
    cbn [map In] in Hcase. destruct Hcase as [[Hc|Hin]|Hnot].
    + right. subst key. apply replace_all_clears; try assumption.
      now apply Hf.
    + now left.
    + right. apply replace_all_keeps_absent; try assumption.
      now apply Hf.
Qed.

Lemma apply_rules_no_match (rules : list (jsstring * jsstring))
  (t : jsstring) :
  (forall r, In r rules -> fst r <> [] /\ occurs (fst r) t = false) ->
  apply_rules rules t = t.
Proof.
  induction rules as [|r rules IH]; intros H; [reflexivity|].
  rewrite apply_rules_cons.
  destruct (H r (or_introl eq_refl)) as [Hk Ho].
  rewrite (replace_all_no_match _ _ _ Hk Ho).
  apply IH. intros r' Hr'. apply H. now right.
Qed.

Lemma table_rules_foreign :
  forallb
    (fun r =>
       negb (Nat.eqb (List.length (fst r)) 0)
       && negb (Nat.eqb (List.length (snd r)) 0)
       && existsb (jsstring_eqb (fst r)) (map fst ARABIC_CHAT_MAP)
       && forallb
            (fun key => forallb (fun x => negb (existsb (N.eqb x) key)) (snd r))
            (map fst ARABIC_CHAT_MAP))
    (multi_rules ++ single_rules) = true.
Proof. reflexivity. Qed.

Lemma table_rule_spec (r : jsstring * jsstring) :
  In r (multi_rules ++ single_rules) ->
  fst r <> [] /\ snd r <> []
  /\ In (fst r) (map fst ARABIC_CHAT_MAP)
  /\ forall key, In key (map fst ARABIC_CHAT_MAP) ->
       forall x, In x (snd r) -> ~ In x key.
Proof.
  intros Hr. pose proof table_rules_foreign as H.
  rewrite forallb_forall in H. specialize (H r Hr). cbv beta in H.
  rewrite !andb_true_iff, !negb_true_iff in H.
  destruct H as [[[Hk Hv] Hin] Hf]. unfold jsstring, codeunit in *.
  repeat split.
  - intros E. now rewrite E in Hk.
  - intros E. now rewrite E in Hv.
  - apply existsb_exists in Hin as (k & Hk' & E).
    apply jsstring_eqb_eq in E. now rewrite E.
  - intros key Hkey x Hx Hxk. rewrite forallb_forall in Hf.
    specialize (Hf key Hkey). rewrite forallb_forall in Hf.
    specialize (Hf x Hx). apply negb_true_iff in Hf.
    assert (existsb (N.eqb x) key = true); [|congruence].
    apply existsb_exists. exists x. split; [exact Hxk | apply N.eqb_refl].
Qed.

Lemma table_keys_are_rules :
  forallb
    (fun key =>
       negb (Nat.eqb (List.length key) 0)
       && negb (existsb is_whitespace key)
       && existsb (jsstring_eqb key) (map fst (multi_rules ++ single_rules)))
    (map fst ARABIC_CHAT_MAP) = true.
Proof. reflexivity. Qed.

Lemma table_key_spec (key : jsstring) :
  In key (map fst ARABIC_CHAT_MAP) ->
  key <> []
  /\ (forall x, In x key -> is_whitespace x = false)
  /\ In key (map fst (multi_rules ++ single_rules)).
Proof.
  intros Hkey. pose proof table_keys_are_rules as H.
  rewrite forallb_forall in H. specialize (H key Hkey). cbv beta in H.
  rewrite !andb_true_iff, !negb_true_iff in H.
  destruct H as [[Hk Hw] Hin]. repeat split.
  - intros E. now rewrite E in Hk.
  - intros x Hx. destruct (is_whitespace x) eqn:E; [|reflexivity].
    assert (existsb is_whitespace key = true); [|congruence].
    apply existsb_exists. now exists x.
  - apply existsb_exists in Hin as (k & Hk' & E).
    apply jsstring_eqb_eq in E. now rewrite E.
Qed.

(** After the two loops no key of the table occurs. *)
Lemma substitute_clears (t key : jsstring) :
  In key (map fst ARABIC_CHAT_MAP) -> occurs key (substitute t) = false.
Proof.
  intros Hkey. destruct (table_key_spec key Hkey) as (Hne & _ & Hin).
  unfold substitute. rewrite <- apply_rules_app.
  apply (apply_rules_clears (map fst ARABIC_CHAT_MAP));
    [|exact Hkey | exact Hne | now left].
  intros r Hr. destruct (table_rule_spec r Hr) as (Hk & Hv & _ & Hf).
  auto.
Qed.

(** ** Occurrences through the clean-up *)

Section CleanupOccurrences.

#[local] Arguments is_whitespace : simpl never.

Variables q rep : jsstring.
Hypothesis q_not_empty : q <> [].
Hypothesis q_no_ws : forall x, In x q -> is_whitespace x = false.
Hypothesis rep_not_empty : rep <> [].
Hypothesis rep_foreign : forall x, In x rep -> ~ In x q.

Lemma starts_with_ws_head (c : codeunit) (s : jsstring) :
  is_whitespace c = true -> starts_with q (c :: s) = false.
Proof.
  intros Hc. apply starts_with_foreign; [exact q_not_empty|].
  intros Hin. rewrite (q_no_ws c Hin) in Hc. discriminate.
Qed.

Lemma starts_with_replace_ws_runs (p s : jsstring) :
  (forall x, In x p -> In x q) ->
  starts_with p (replace_ws_runs rep false s) = true ->
  starts_with p s = true.
Proof.
  revert s. induction p as [|x p IH]; intros s Hp H; [reflexivity|].
  destruct s as [|c s]; [discriminate H|].
  assert (Hx : In x q) by (apply Hp; now left).
  rewrite replace_ws_runs_cons in H.
  destruct (is_whitespace c) eqn:Hc.
  - exfalso. destruct s as [|d s].
    + cbn in H. apply andb_true_iff in H as [H _].
      apply N.eqb_eq in H. subst c. rewrite (q_no_ws x Hx) in Hc.
      discriminate.
    + destruct (is_whitespace d).
      * destruct rep as [|y rep']; [congruence|].
        cbn in H. apply andb_true_iff in H as [H _].
        apply N.eqb_eq in H. subst y.
        apply (rep_foreign x); [now left | exact Hx].
      * cbn in H. apply andb_true_iff in H as [H _].
        apply N.eqb_eq in H. subst c. rewrite (q_no_ws x Hx) in Hc.
        discriminate.
  - cbn in H. apply andb_true_iff in H as [Hxc H].
    cbn. rewrite Hxc. cbn [andb]. apply IH; [|exact H].
    intros y Hy. apply Hp. now right.
Qed.

Lemma starts_with_cons_replace_ws_runs (p : jsstring) (c : codeunit)
  (s : jsstring) :
  (forall x, In x p -> In x q) ->
  starts_with p (c :: s) = false ->
  starts_with p (c :: replace_ws_runs rep false s) = false.
Proof.
  intros Hp Hs. destruct p as [|x p]; [discriminate Hs|].
  destruct (starts_with (x :: p) (c :: replace_ws_runs rep false s)) eqn:F;
    [|reflexivity].
  cbn in F, Hs. apply andb_true_iff in F as [Hxc F]. rewrite Hxc in Hs.
  cbn [andb] in Hs.
  rewrite (starts_with_replace_ws_runs p s) in Hs; [discriminate| |exact F].
  intros y Hy. apply Hp. now right.
Qed.

Lemma replace_ws_runs_keeps_absent (b : bool) (s : jsstring) :
  occurs q s = false -> occurs q (replace_ws_runs rep b s) = false.
Proof.
  revert b. induction s as [|c s IH]; intros b Hs.
  - now apply occurs_nil.
  - rewrite occurs_cons in Hs. apply orb_false_iff in Hs as [Hc Hs].
    assert (Hkeep : occurs q (c :: replace_ws_runs rep false s) = false).
    { rewrite occurs_cons, (IH false Hs), orb_false_r.
      now apply starts_with_cons_replace_ws_runs. }
    rewrite replace_ws_runs_cons. destruct (is_whitespace c) eqn:Ec.
    + destruct b; [now apply IH|].
      destruct s as [|d s]; [|destruct (is_whitespace d)].
      * rewrite occurs_cons, (occurs_nil _ q_not_empty), orb_false_r.
        now apply starts_with_ws_head.
      * rewrite occurs_app_foreign by assumption. now apply IH.
      * exact Hkeep.
    + exact Hkeep.
Qed.

End CleanupOccurrences.

Lemma trim_keeps_absent (q s : jsstring) :
  q <> [] -> occurs q s = false -> occurs q (trim s) = false.
Proof.
  intros Hq Hs. unfold trim.
  destruct (trimStart_split s) as (w1 & H1 & _).
  destruct (trimEnd_split (trimStart s)) as (w2 & H2 & _).
  rewrite H1 in Hs. apply occurs_app_r in Hs.
  rewrite H2 in Hs. now apply occurs_app_l in Hs.
Qed.

Lemma cleanup_keeps_absent (q t : jsstring) :
  q <> [] -> (forall x, In x q -> is_whitespace x = false) ->
  occurs q t = false -> occurs q (cleanup t) = false.
Proof.
  intros Hq Hws Ht. unfold cleanup. apply trim_keeps_absent; [exact Hq|].
  apply replace_ws_runs_keeps_absent; try assumption.
  - discriminate.
  - intros x [<-|[]] Hin. specialize (Hws _ Hin). discriminate Hws.
Qed.

(** ** What the result is made of *)

Lemma existsb_false_iff {A : Type} (f : A -> bool) (l : list A) :
  existsb f l = false <-> forall x, In x l -> f x = false.
Proof.
  split.
  - intros H x Hx. destruct (f x) eqn:E; [|reflexivity].
    assert (existsb f l = true) by (apply existsb_exists; eauto).
    congruence.
  - intros H. destruct (existsb f l) eqn:E; [|reflexivity].
    apply existsb_exists in E as (x & Hx & Hf).
    rewrite (H x Hx) in Hf. discriminate.
Qed.

Lemma map_fixed {A : Type} (f : A -> A) (l : list A) :
  (forall x, In x l -> f x = x) -> map f l = l.
Proof.
  intros H. rewrite <- (map_id l) at 2. now apply map_ext_in.
Qed.

Lemma is_ascii_upper_lower (c : codeunit) :
  is_ascii_upper (lower_unit c) = false.
Proof.
  unfold lower_unit. fold (is_ascii_upper c).
  destruct (is_ascii_upper c) eqn:E; [|exact E].
  apply is_ascii_upper_iff in E.
  destruct (is_ascii_upper (c + 32)) eqn:F; [|reflexivity].
  apply is_ascii_upper_iff in F. lia.
Qed.

Lemma rule_values_in_table :
  forallb
    (fun r => forallb (fun x => existsb (N.eqb x) value_units) (snd r))
    (multi_rules ++ single_rules) = true.
Proof. reflexivity. Qed.

Lemma value_units_not_upper :
  forallb (fun x => negb (is_ascii_upper x)) value_units = true.
Proof. reflexivity. Qed.

(** Every code unit of the result of the loops and the clean-up was in
    the text they were given, or is one of a replacement text of the
    table, or is the space. *)
Lemma In_cleanup_substitute (x : codeunit) (t : jsstring) :
  In x (cleanup (substitute t)) ->
  In x t \/ In x value_units \/ x = 32.
Proof.
  intros H. unfold cleanup in H.
  apply In_trim, In_replace_ws_runs in H. destruct H as [H|H].
  - unfold substitute in H. rewrite <- apply_rules_app in H.
    apply In_apply_rules in H as [H|(r & Hr & Hx)]; [now left|].
    right. left. pose proof rule_values_in_table as Hv.
    rewrite forallb_forall in Hv. specialize (Hv r Hr). cbv beta in Hv.
    rewrite forallb_forall in Hv. specialize (Hv x Hx).
    apply existsb_exists in Hv as (y & Hy & E).
    apply N.eqb_eq in E. now subst y.
  - right. right. destruct H as [<-|[]]. reflexivity.
Qed.

Lemma In_result_not_upper (x : codeunit) (s : jsstring) :
  In x (cleanup (substitute (toLowerCase s))) -> is_ascii_upper x = false.
Proof.
  intros H. apply In_cleanup_substitute in H as [H|[H| ->]].
  - unfold toLowerCase in H. apply in_map_iff in H as (c & <- & _).
    apply is_ascii_upper_lower.
  - pose proof value_units_not_upper as Hv.
    rewrite forallb_forall in Hv. specialize (Hv x H).
    now apply negb_true_iff in Hv.
  - reflexivity.
Qed.

Lemma result_is_normal_form (s : jsstring) :
  is_normal_form (cleanup (substitute (toLowerCase s))) = true.
Proof.
  unfold is_normal_form, tidy.
  destruct (cleanup_tidy (substitute (toLowerCase s))) as (Hr & Hs & He).
  rewrite Hr, Hs, He. cbn [negb andb]. rewrite !andb_true_r.
  apply andb_true_iff. split.
  - apply negb_true_iff, existsb_false_iff. intros x Hx.
    apply (In_result_not_upper x s). exact Hx.
  - apply negb_true_iff. unfold key_occurs. apply existsb_false_iff.
    intros key Hkey. destruct (table_key_spec key Hkey) as (Hne & Hws & _).
    apply cleanup_keeps_absent; [exact Hne | exact Hws |].
    now apply substitute_clears.
Qed.

Lemma normal_form_fixed (s : jsstring) :
  is_normal_form s = true -> cleanup (substitute (toLowerCase s)) = s.
Proof.
  unfold is_normal_form, tidy.
  rewrite !andb_true_iff, !negb_true_iff.
  intros [[Hup Hkeys] [[Hrun Hs] He]].
  rewrite existsb_false_iff in Hup.
  assert (Hlow : toLowerCase s = s)
    by (apply map_fixed; intros x Hx; apply lower_unit_fixed; now apply Hup).
  rewrite Hlow. unfold key_occurs in Hkeys.
  rewrite existsb_false_iff in Hkeys.
  unfold substitute. rewrite <- apply_rules_app.
  rewrite apply_rules_no_match; [now apply cleanup_id|].
  intros r Hr. destruct (table_rule_spec r Hr) as (Hk & _ & Hin & _).
  split; [exact Hk | now apply Hkeys].
Qed.

(** ** The range of [normalizeDarija] and its fixed points *)

(** X3: no key of the table, of one code unit or of two, is left in the
    result. *)
Theorem output_has_no_table_key (s : jsstring) :
  exists r,
    normalizeDarija (JSString s) = Normal r
    /\ forall key, In key (map fst ARABIC_CHAT_MAP) -> occurs key r = false.
Proof.
  rewrite normalizeDarija_string. eexists. split; [reflexivity|].
  intros key Hkey. destruct (table_key_spec key Hkey) as (Hne & _ & _).
  destruct s as [|c s]; [now apply occurs_nil|].
  pose proof (result_is_normal_form (c :: s)) as H.
  unfold is_normal_form in H. rewrite !andb_true_iff in H.
  destruct H as [[_ H] _]. apply negb_true_iff in H.
  unfold key_occurs in H. rewrite existsb_false_iff in H. now apply H.
Qed.

(** X4: the result has no ASCII capital letter. *)
Theorem output_has_no_ascii_capital (s : jsstring) :
  exists r,
    normalizeDarija (JSString s) = Normal r
    /\ forall c, In c r -> is_ascii_upper c = false.
Proof.
  rewrite normalizeDarija_string. eexists. split; [reflexivity|].
  destruct s as [|c s]; [intros x []|].
  intros x. apply In_result_not_upper.
Qed.

(** X2: a string that is returned as it is is in normal form: it has no
    ASCII capital, no key of the table occurs in it, and its white space
    is tidy; and a string of ASCII, white space and Arabic-script
    characters that is in normal form is returned as it is. *)
Theorem fixed_points_and_normal_forms (s : jsstring) :
  (normalizeDarija (JSString s) = Normal s -> is_normal_form s = true)
  /\ (plain_text s = true -> is_normal_form s = true ->
      normalizeDarija (JSString s) = Normal s).
Proof.
  rewrite normalizeDarija_string. split.
  - destruct s as [|c s]; [reflexivity|].
    intros H.
    pose proof (f_equal (fun x => match x with
                                  | Normal a => a
                                  | Throw _ => []
                                  end) H) as E.
    cbv beta iota in E.
    pose proof (result_is_normal_form (c :: s)) as N.
    rewrite E in N. exact N.
  - intros _ H. destruct s as [|c s]; [reflexivity|].
    now rewrite normal_form_fixed.
Qed.

(** X1: normalizing twice is normalizing once. *)
Theorem normalizeDarija_idempotent (s : jsstring) :
  exists r,
    normalizeDarija (JSString s) = Normal r
    /\ normalizeDarija (JSString r) = Normal r.
Proof.
  rewrite normalizeDarija_string. eexists. split; [reflexivity|].
  destruct s as [|c s]; [reflexivity|].
  rewrite normalizeDarija_string.
  rewrite (normal_form_fixed _ (result_is_normal_form (c :: s))).
  now destruct (cleanup (substitute (toLowerCase (c :: s)))).
Qed.

Lemma fixed_point_kun_ghadi :
  plain_text (js "kun ghadi ydir, عندي") = true
  /\ is_normal_form (js "kun ghadi ydir, عندي") = true
  /\ normalizeDarija (JSString (js "kun ghadi ydir, عندي"))
     = Normal (js "kun ghadi ydir, عندي").
Proof.
  split; [reflexivity|]. split; [reflexivity|].
  apply (proj2 (fixed_points_and_normal_forms (js "kun ghadi ydir, عندي")));
    reflexivity.
Defined.

(** ** Length *)

Lemma replace_from_length (pat rep : jsstring) (k : nat) (s : jsstring) :
  (List.length rep <= List.length pat)%nat ->
  (List.length (replace_from pat rep k s) <= List.length s - k)%nat.
Proof.
  intros Hrep. revert k. induction s as [|c s IH]; intros k; [cbn; lia|].
  cbn [replace_from]. destruct k as [|k].
  - destruct (starts_with pat (c :: s)) eqn:E.
    + apply starts_with_length in E. rewrite length_app.
      specialize (IH (List.length pat - 1)%nat). cbn [List.length] in *. lia.
    + specialize (IH 0%nat). cbn [List.length]. lia.
  - specialize (IH k). cbn [List.length]. lia.
Qed.

Lemma replace_all_length (pat rep s : jsstring) :
  pat <> [] -> (List.length rep <= List.length pat)%nat ->
  (List.length (replace_all pat rep s) <= List.length s)%nat.
Proof.
  intros Hne Hrep. unfold replace_all.
  destruct pat as [|p pat'] eqn:E; [congruence|]. rewrite <- E in *.
  pose proof (replace_from_length pat rep 0 s Hrep). lia.
Qed.

Lemma apply_rules_length (rules : list (jsstring * jsstring))
  (t : jsstring) :
  (forall r, In r rules ->
     fst r <> [] /\ (List.length (snd r) <= List.length (fst r))%nat) ->
  (List.length (apply_rules rules t) <= List.length t)%nat.
Proof.
  revert t. induction rules as [|r rules IH]; intros t H; [cbn; lia|].
  rewrite apply_rules_cons.
  destruct (H r (or_introl eq_refl)) as [Hk Hl].
  pose proof (replace_all_length _ _ t Hk Hl).
  specialize (IH (replace_all (fst r) (snd r) t)
                (fun r' Hr' => H r' (or_intror Hr'))). lia.
Qed.

Lemma replace_ws_runs_length (rep : jsstring) (b : bool) (s : jsstring) :
  (List.length rep <= 1)%nat ->
  (List.length (replace_ws_runs rep b s) <= List.length s)%nat.
Proof.
  intros Hrep. revert b. induction s as [|c s IH]; intros b; [cbn; lia|].
  rewrite replace_ws_runs_cons.
  pose proof (IH true). pose proof (IH false).
  destruct (is_whitespace c); [destruct b|].
  - cbn [List.length]. lia.
  - destruct s as [|d s]; [cbn; lia|].
    destruct (is_whitespace d); [rewrite length_app|];
      cbn [List.length] in *; lia.
  - cbn [List.length]. lia.
Qed.

Lemma trim_length (s : jsstring) :
  (List.length (trim s) <= List.length s)%nat.
Proof.
  unfold trim.
  destruct (trimStart_split s) as (w1 & H1 & _).
  destruct (trimEnd_split (trimStart s)) as (w2 & H2 & _).
  apply (f_equal (@List.length _)) in H1, H2.
  rewrite length_app in H1, H2. lia.
Qed.

Lemma table_rules_shrink :
  forallb
    (fun r =>
       negb (Nat.eqb (List.length (fst r)) 0)
       && Nat.leb (List.length (snd r)) (List.length (fst r)))
    (multi_rules ++ single_rules) = true.
Proof. reflexivity. Qed.

(** X5: for input of ASCII, white space and Arabic-script characters the
    result is never longer than the input: lowering keeps the length, each
    replacement puts one code unit in the place of one or two, and the
    clean-up only removes. *)
Theorem output_not_longer (s : jsstring) :
  plain_text s = true ->
  exists r,
    normalizeDarija (JSString s) = Normal r
    /\ (List.length r <= List.length s)%nat.
Proof.
  intros _. rewrite normalizeDarija_string. eexists. split; [reflexivity|].
  destruct s as [|c s]; [cbn; lia|].
  rewrite <- (length_map lower_unit (c :: s)). fold (toLowerCase (c :: s)).
  unfold cleanup, substitute. rewrite <- apply_rules_app.
  set (t := toLowerCase (c :: s)).
  pose proof (trim_length
                (replace_ws_runs (js " ") false
                   (apply_rules (multi_rules ++ single_rules) t))) as H1.
  pose proof (replace_ws_runs_length (js " ") false
                (apply_rules (multi_rules ++ single_rules) t)
                (Nat.le_refl 1)) as H2.
  assert (H3 : (List.length (apply_rules (multi_rules ++ single_rules) t)
                <= List.length t)%nat).
  { apply apply_rules_length. intros r Hr.
    pose proof table_rules_shrink as H. rewrite forallb_forall in H.
    specialize (H r Hr). cbv beta in H.
    apply andb_true_iff in H as [Hk Hl]. apply negb_true_iff in Hk.
    apply Nat.leb_le in Hl. split; [|exact Hl].
    unfold jsstring, codeunit in *. intros E. now rewrite E in Hk. }
  lia.
Qed.

Lemma output_not_longer_example :
  plain_text (js "SHkun  d7 , عندي") = true
  /\ exists r,
       normalizeDarija (JSString (js "SHkun  d7 , عندي")) = Normal r
       /\ (List.length r <= List.length (js "SHkun  d7 , عندي"))%nat.
Proof.
  split; [reflexivity|]. apply output_not_longer. reflexivity.
Defined.

(** ** Code units that pass through *)

Section PassThrough.

Variable p : codeunit -> bool.

Lemma filter_none (l : jsstring) :
  (forall x, In x l -> p x = false) -> filter p l = [].
Proof.
  induction l as [|x l IH]; intros H; [reflexivity|].
  cbn [filter]. rewrite (H x (or_introl eq_refl)).
  apply IH. intros y Hy. apply H. now right.
Qed.

Lemma starts_with_firstn (pat s : jsstring) :
  starts_with pat s = true -> firstn (List.length pat) s = pat.
Proof.
  revert s. induction pat as [|x pat IH]; intros s H; [reflexivity|].
  destruct s as [|c s]; [discriminate H|].
  cbn in H. apply andb_true_iff in H as [Hx H]. apply N.eqb_eq in Hx.
  cbn [List.length firstn]. now rewrite (IH _ H), Hx.
Qed.

(** Replacing a pattern by a text, neither of which has a code unit that
    [p] selects, leaves the selected code units as they were; what a match
    in progress still has to skip is part of the pattern. *)
Lemma filter_replace_from (pat rep : jsstring) (k : nat) (s : jsstring) :
  pat <> [] ->
  (forall x, In x pat -> p x = false) ->
  (forall x, In x rep -> p x = false) ->
  (forall x, In x (firstn k s) -> p x = false) ->
  filter p (replace_from pat rep k s) = filter p (skipn k s).
Proof.
  intros Hne Hpat Hrep. revert k. induction s as [|c s IH]; intros k Hk.
  - now destruct k.
  - cbn [replace_from]. destruct k as [|k].
    + cbn [skipn]. destruct (starts_with pat (c :: s)) eqn:E.
      * pose proof (starts_with_firstn _ _ E) as Hf.
        destruct pat as [|x pat'] eqn:Ep; [congruence|rewrite <- Ep in *].
        assert (Hlen : List.length pat = S (List.length pat'))
          by now rewrite Ep.
        rewrite Hlen in Hf. cbn [firstn] in Hf.
        rewrite Hlen. cbn [Nat.sub]. rewrite Nat.sub_0_r.
        rewrite filter_app, (filter_none rep Hrep). cbn [app].
        assert (Hpre : forall y, In y (c :: firstn (List.length pat') s) ->
                  p y = false)
          by (intros y Hy; apply Hpat; now rewrite <- Hf).
        rewrite IH by (intros y Hy; apply Hpre; now right).
        cbn [filter]. rewrite (Hpre c (or_introl eq_refl)).
        transitivity
          (filter p (firstn (List.length pat') s
                       ++ skipn (List.length pat') s));
          [|now rewrite firstn_skipn].
        rewrite filter_app, (filter_none (firstn (List.length pat') s));
          [reflexivity|].
        intros y Hy. apply Hpre. now right.
      * cbn [filter]. rewrite (IH 0%nat); [reflexivity|].
        intros y [].
    + cbn [skipn]. apply IH. intros y Hy. apply Hk. now right.
Qed.

Lemma filter_replace_all (pat rep s : jsstring) :
  pat <> [] ->
  (forall x, In x pat -> p x = false) ->
  (forall x, In x rep -> p x = false) ->
  filter p (replace_all pat rep s) = filter p s.
Proof.
  intros Hne Hpat Hrep. unfold replace_all.
  destruct pat as [|x pat'] eqn:E; [congruence|]. rewrite <- E in *.
  apply (filter_replace_from pat rep 0 s Hne Hpat Hrep). intros y [].
Qed.

Lemma filter_apply_rules (rules : list (jsstring * jsstring))
  (t : jsstring) :
  (forall r, In r rules ->
     fst r <> []
     /\ (forall x, In x (fst r) -> p x = false)
     /\ (forall x, In x (snd r) -> p x = false)) ->
  filter p (apply_rules rules t) = filter p t.
Proof.
  revert t. induction rules as [|r rules IH]; intros t H; [reflexivity|].
  rewrite apply_rules_cons.
  destruct (H r (or_introl eq_refl)) as (Hne & Hk & Hv).
  rewrite IH by (intros r' Hr'; apply H; now right).
  now apply filter_replace_all.
Qed.

Hypothesis p_not_ws : forall x, is_whitespace x = true -> p x = false.

Lemma filter_replace_ws_runs (rep : jsstring) (b : bool) (s : jsstring) :
  (forall x, In x rep -> p x = false) ->
  filter p (replace_ws_runs rep b s) = filter p s.
Proof.
  intros Hrep. revert b. induction s as [|c s IH]; intros b; [reflexivity|].
  rewrite replace_ws_runs_cons. cbn [filter].
  destruct (is_whitespace c) eqn:Ec.
  - rewrite (p_not_ws c Ec). destruct b; [apply IH|].
    destruct s as [|d s]; [cbn; now rewrite (p_not_ws c Ec)|].
    destruct (is_whitespace d).
    + rewrite filter_app, (filter_none rep Hrep). apply IH.
    + cbn [filter]. rewrite (p_not_ws c Ec). apply IH.
  - cbn [filter]. now rewrite IH.
Qed.

Lemma filter_whitespace (w : jsstring) :
  forallb is_whitespace w = true -> filter p w = [].
Proof.
  intros Hw. apply filter_none. intros x Hx. apply p_not_ws.
  rewrite forallb_forall in Hw. now apply Hw.
Qed.

Lemma filter_trim (s : jsstring) : filter p (trim s) = filter p s.
Proof.
  unfold trim.
  destruct (trimStart_split s) as (w1 & H1 & Hw1).
  destruct (trimEnd_split (trimStart s)) as (w2 & H2 & Hw2).
  rewrite H1 at 2. rewrite H2 at 2.
  rewrite !filter_app, (filter_whitespace w1 Hw1), (filter_whitespace w2 Hw2).
  now rewrite app_nil_r.
Qed.

End PassThrough.

Lemma table_rules_units :
  forallb
    (fun r =>
       negb (Nat.eqb (List.length (fst r)) 0)
       && forallb (fun x => existsb (N.eqb x) key_units) (fst r)
       && forallb (fun x => existsb (N.eqb x) value_units) (snd r))
    (multi_rules ++ single_rules) = true.
Proof. reflexivity. Qed.

Lemma passes_through_spec (x : codeunit) :
  is_whitespace x = true
  \/ existsb (N.eqb x) key_units = true
  \/ existsb (N.eqb x) value_units = true ->
  passes_through x = false.
Proof.
  unfold passes_through. intros [H|[H|H]]; rewrite H; cbn [negb andb].
  - reflexivity.
  - now rewrite andb_false_r.
  - now rewrite andb_false_r.
Qed.

(** X6: for input of ASCII, white space and Arabic-script characters, the
    code units that are neither white space nor part of a key or of a
    replacement text of the table (letters other than [d], [h], [s], [z],
    the digits 0, 1, 4, punctuation, ...) come out as they are in the
    lowered input: the same ones, as many times, in the same order. *)
Theorem other_units_pass_through (s : jsstring) :
  plain_text s = true ->
  exists r,
    normalizeDarija (JSString s) = Normal r
    /\ filter passes_through r = filter passes_through (toLowerCase s).
Proof.
  intros _. rewrite normalizeDarija_string. eexists. split; [reflexivity|].
  destruct s as [|c s]; [reflexivity|].
  assert (Hws : forall x, is_whitespace x = true -> passes_through x = false)
    by (intros x Hx; apply passes_through_spec; now left).
  unfold cleanup, substitute. rewrite <- apply_rules_app.
  rewrite (filter_trim _ Hws), (filter_replace_ws_runs _ Hws).
  - apply filter_apply_rules. intros r Hr.
    pose proof table_rules_units as H. rewrite forallb_forall in H.
    specialize (H r Hr). cbv beta in H.
    rewrite !andb_true_iff, negb_true_iff in H. destruct H as [[Hk Hku] Hvu].
    rewrite forallb_forall in Hku, Hvu. repeat split.
    + unfold jsstring, codeunit in *. intros E. now rewrite E in Hk.
    + intros x Hx. apply passes_through_spec. right. left. now apply Hku.
    + intros x Hx. apply passes_through_spec. right. right. now apply Hvu.
  - intros x [<-|[]]. reflexivity.
Qed.

Lemma other_units_pass_through_example :
  plain_text (js "Shkun GHADI ydir, 10 d9i9at?") = true
  /\ exists r,
       normalizeDarija (JSString (js "Shkun GHADI ydir, 10 d9i9at?"))
       = Normal r
       /\ filter passes_through r
          = filter passes_through
              (toLowerCase (js "Shkun GHADI ydir, 10 d9i9at?")).
Proof.
  split; [reflexivity|]. apply other_units_pass_through. reflexivity.
Defined.

(** ** The second loop replaces every digit at once *)

Lemma jsstring_eqb_length (s t : jsstring) :
  jsstring_eqb s t = true -> List.length s = List.length t.
Proof. intros H. apply jsstring_eqb_eq in H. now subst. Qed.

Lemma flat_map_units {A : Type} (f : A -> list A) (l : list A) :
  (forall y, In y l -> f y = [y]) -> flat_map f l = l.
Proof.
  induction l as [|y l IH]; intros H; [reflexivity|].
  cbn [flat_map]. rewrite (H y (or_introl eq_refl)).
  cbn [app]. f_equal. apply IH. intros z Hz. apply H. now right.
Qed.

(** Rules whose keys are single code units, none of which is produced by
    a replacement text, act on each code unit of the text
    independently. *)
Lemma apply_rules_single_units (rules : JSTable) (t : jsstring) :
  (forall r, In r rules -> exists c, fst r = [c]) ->
  (forall r, In r rules -> forall y, In y (snd r) -> get rules [y] = None) ->
  apply_rules rules t = flat_map (substitute_unit rules) t.
Proof.
  revert t. induction rules as [|[k rep] rules IH]; intros t Hk Hv.
  - cbn. induction t as [|x t IHt]; [reflexivity|].
    cbn. now rewrite <- IHt.
  - destruct (Hk (k, rep) (or_introl eq_refl)) as (c & Hc).
    cbn [fst] in Hc. subst k.
    assert (Hrest : forall y,
              get ((([c], rep) : jsstring * jsstring) :: rules) [y] = None ->
              c <> y /\ get rules [y] = None).
    { intros y Hy. cbn [get jsstring_eqb] in Hy. rewrite andb_true_r in Hy.
      destruct (N.eqb_spec c y) as [->|Hne]; [discriminate Hy | now split]. }
    rewrite apply_rules_cons. cbn [fst snd]. rewrite replace_all_single.
    rewrite IH.
    + induction t as [|x t IHt]; [reflexivity|].
      cbn [flat_map]. rewrite flat_map_app, IHt. f_equal.
      unfold substitute_unit at 2. cbn [get jsstring_eqb].
      rewrite andb_true_r. destruct (N.eqb_spec c x) as [->|Hne].
      * apply flat_map_units. intros y Hy. unfold substitute_unit.
        destruct (Hrest y (Hv _ (or_introl eq_refl) y Hy)) as [_ Hg].
        now rewrite Hg.
      * cbn [flat_map]. now rewrite app_nil_r.
    + intros r Hr. apply Hk. now right.
    + intros r Hr y Hy. now apply (Hrest y (Hv r (or_intror Hr) y Hy)).
Qed.

Lemma get_permutation (t1 t2 : JSTable) (key : jsstring) :
  Permutation t1 t2 -> NoDup (map fst t1) -> get t1 key = get t2 key.
Proof.
  induction 1 as [|[k v] l l' Hp IH|[k v] [k' v'] l|l l' l'' Hp1 IH1 Hp2 IH2];
    intros Hnd.
  - reflexivity.
  - cbn [get]. cbn [map fst] in Hnd. inversion Hnd; subst.
    now rewrite IH.
  - cbn [get]. cbn [map fst] in Hnd.
    destruct (jsstring_eqb k key) eqn:E1, (jsstring_eqb k' key) eqn:E2;
      try reflexivity.
    apply jsstring_eqb_eq in E1, E2. subst k k'.
    inversion Hnd as [|? ? Hin _]; subst. exfalso. apply Hin. now left.
  - rewrite IH1 by assumption. apply IH2.
    apply (Permutation_NoDup (Permutation_map fst Hp1) Hnd).
Qed.

(** An entry whose key is not one code unit long is never what a single
    code unit reads. *)
Lemma get_single_filter (t : JSTable) (x : codeunit) :
  get t [x] =
  get (filter (fun r => Nat.eqb (List.length (fst r)) 1) t) [x].
Proof.
  induction t as [|[k v] t IH]; [reflexivity|].
  cbn [filter fst]. destruct (Nat.eqb_spec (List.length k) 1) as [E|E].
  - cbn [get]. now rewrite IH.
  - cbn [get]. destruct (jsstring_eqb k [x]) eqn:F; [|exact IH].
    apply jsstring_eqb_length in F. cbn in F. contradiction.
Qed.

Lemma single_rules_NoDup : NoDup (map fst single_rules).
Proof.
  vm_compute. repeat constructor; cbn; intuition discriminate.
Qed.

Lemma single_rules_written_order :
  Permutation
    (filter (fun r => Nat.eqb (List.length (fst r)) 1) ARABIC_CHAT_MAP)
    single_rules.
Proof.
  apply NoDup_Permutation.
  - vm_compute. repeat constructor; cbn; intuition discriminate.
  - vm_compute. repeat constructor; cbn; intuition discriminate.
  - intros r. split; intros H; vm_compute in H |- *; tauto.
Qed.

Lemma single_rules_values_not_keys :
  forallb
    (fun r =>
       Nat.eqb (List.length (fst r)) 1
       && forallb
            (fun y =>
               match get single_rules [y] with
               | None => true
               | Some _ => false
               end)
            (snd r))
    single_rules = true.
Proof. reflexivity. Qed.

(** The order in which the second loop visits the digit keys does not
    matter: in any order, every code unit that is a key of the table is
    replaced by its entry and every other code unit is kept. *)
Lemma single_pass_any_order (rules : JSTable) (t : jsstring) :
  Permutation rules single_rules ->
  apply_rules rules t = flat_map (substitute_unit ARABIC_CHAT_MAP) t.
Proof.
  intros Hp.
  assert (Hnd : NoDup (map fst rules)).
  { apply (Permutation_NoDup (Permutation_map fst (Permutation_sym Hp))).
    exact single_rules_NoDup. }
  assert (Hget : forall key, get rules key = get single_rules key)
    by (intros key; now apply get_permutation).
  assert (Hfacts : forall r, In r rules ->
            (exists c, fst r = [c])
            /\ forall y, In y (snd r) -> get rules [y] = None).
  { intros r Hr. apply (Permutation_in _ Hp) in Hr.
    pose proof single_rules_values_not_keys as H.
    rewrite forallb_forall in H. specialize (H r Hr). cbv beta in H.
    apply andb_true_iff in H as [Hk Hv]. split.
    - apply Nat.eqb_eq in Hk. unfold jsstring, codeunit in *.
      destruct (fst r) as [|c [|d k]]; try discriminate Hk. now exists c.
    - intros y Hy. rewrite forallb_forall in Hv. specialize (Hv y Hy).
      rewrite Hget. now destruct (get single_rules [y]). }
  rewrite apply_rules_single_units;
    [|intros r Hr; now apply Hfacts | intros r Hr; now apply Hfacts].
  apply flat_map_ext. intros x. unfold substitute_unit.
  rewrite Hget, (get_single_filter ARABIC_CHAT_MAP x).
  now rewrite (get_permutation _ _ [x] (Permutation_sym
                 single_rules_written_order) single_rules_NoDup).
Qed.

Lemma single_pass_any_order_written :
  apply_rules
    (filter (fun r => Nat.eqb (List.length (fst r)) 1) ARABIC_CHAT_MAP)
    (js "3andi 7ob, 9albi 2 5 6 8")
  = flat_map (substitute_unit ARABIC_CHAT_MAP) (js "3andi 7ob, 9albi 2 5 6 8").
Proof.
  apply single_pass_any_order. exact single_rules_written_order.
Defined.

(** ** The order of the first loop *)

Lemma sort_insert_permutation (cmp : jsstring -> jsstring -> Z)
  (a : jsstring) (l : list jsstring) :
  Permutation (a :: l) (sort_insert cmp a l).
Proof.
  induction l as [|b l IH]; [apply Permutation_refl|].
  cbn [sort_insert]. destruct (cmp a b <=? 0)%Z.
  - apply Permutation_refl.
  - apply (perm_trans (perm_swap b a l)). now apply perm_skip.
Qed.

Lemma Array_sort_permutation (cmp : jsstring -> jsstring -> Z)
  (l : list jsstring) :
  Permutation l (Array_sort cmp l).
Proof.
  induction l as [|a l IH]; [apply perm_nil|].
  cbn [Array_sort fold_right]. fold (Array_sort cmp l).
  apply (perm_trans (perm_skip a IH)). apply sort_insert_permutation.
Qed.

Lemma sort_insert_descending (a : jsstring) (l : list jsstring) :
  StronglySorted
    (fun x y => (List.length y <= List.length x)%nat) l ->
  StronglySorted
    (fun x y => (List.length y <= List.length x)%nat)
    (sort_insert by_length_descending a l).
Proof.
  induction 1 as [|b l Hs IH Hb].
  - repeat constructor.
  - cbn [sort_insert]. unfold by_length_descending at 1.
    destruct (Z.leb_spec
                (Z.of_nat (List.length b) - Z.of_nat (List.length a)) 0)
      as [Hle|Hgt].
    + constructor; [now constructor|].
      constructor; [lia|].
      rewrite Forall_forall in Hb |- *. intros x Hx.
      specialize (Hb x Hx). lia.
    + constructor; [exact IH|].
      apply (Permutation_Forall
               (sort_insert_permutation by_length_descending a l)).
      constructor; [lia | exact Hb].
Qed.

Lemma sort_insert_stable (n : nat) (a : jsstring) (l : list jsstring) :
  filter (fun k => Nat.eqb (List.length k) n)
    (sort_insert by_length_descending a l)
  = filter (fun k => Nat.eqb (List.length k) n) (a :: l).
Proof.
  induction l as [|b l IH]; [reflexivity|].
  cbn [sort_insert]. unfold by_length_descending at 1.
  destruct (Z.leb_spec
              (Z.of_nat (List.length b) - Z.of_nat (List.length a)) 0)
    as [Hle|Hgt]; [reflexivity|].
  cbn [filter] in *. rewrite IH.
  destruct (Nat.eqb_spec (List.length a) n) as [Ea|Ea];
    destruct (Nat.eqb_spec (List.length b) n) as [Eb|Eb];
    try reflexivity.
  lia.
Qed.

(** X12: the keys go through the first loop longest first; the sort loses
    and adds no key, and keys of one length stay in the order
    [Object.keys] gave them. *)
Theorem multi_keys_longest_first (l : list jsstring) :
  Permutation l (Array_sort by_length_descending l)
  /\ StronglySorted
       (fun x y => (List.length y <= List.length x)%nat)
       (Array_sort by_length_descending l)
  /\ forall n,
       filter (fun k => Nat.eqb (List.length k) n)
         (Array_sort by_length_descending l)
       = filter (fun k => Nat.eqb (List.length k) n) l.
Proof.
  split; [apply Array_sort_permutation|]. split.
  - induction l as [|a l IH]; [constructor|].
    cbn [Array_sort fold_right]. fold (Array_sort by_length_descending l).
    now apply sort_insert_descending.
  - intros n. induction l as [|a l IH]; [reflexivity|].
    cbn [Array_sort fold_right]. fold (Array_sort by_length_descending l).
    rewrite sort_insert_stable. cbn [filter]. now rewrite IH.
Qed.

(** ** Runs of white space and white space around the text *)

Section WhiteSpaceRuns.

#[local] Arguments is_whitespace : simpl never.

Variable rep : jsstring.

(** After text that ends with something else than white space, the
    replacement of runs starts afresh. *)
Lemma replace_ws_runs_app (b : bool) (x z : jsstring) :
  x <> [] -> ends_with_ws x = false ->
  replace_ws_runs rep b (x ++ z) =
  replace_ws_runs rep b x ++ replace_ws_runs rep false z.
Proof.
  revert b. induction x as [|c s IH]; intros b Hne He; [congruence|].
  destruct s as [|d s].
  - change (ends_with_ws [c]) with (is_whitespace c) in He.
    change ([c] ++ z) with (c :: z).
    now rewrite (replace_ws_runs_cons rep b c z),
      (replace_ws_runs_cons rep b c []), He.
  - assert (IH' := fun b => IH b ltac:(discriminate) He).
    change ((c :: d :: s) ++ z) with (c :: ((d :: s) ++ z)).
    rewrite (replace_ws_runs_cons rep b c ((d :: s) ++ z)).
    rewrite (replace_ws_runs_cons rep b c (d :: s)).
    rewrite !IH'. cbn [app]. cbv beta iota.
    destruct (is_whitespace c); [|reflexivity].
    destruct b; [reflexivity|].
    destruct (is_whitespace d); [|reflexivity].
    now rewrite app_assoc.
Qed.

Lemma replace_ws_runs_skip (ws y : jsstring) :
  forallb is_whitespace ws = true ->
  replace_ws_runs rep true (ws ++ y) = replace_ws_runs rep true y.
Proof.
  induction ws as [|w ws IH]; intros H; [reflexivity|].
  cbn [forallb] in H. apply andb_true_iff in H as [Hw H].
  change ((w :: ws) ++ y) with (w :: (ws ++ y)).
  rewrite replace_ws_runs_cons, Hw. now apply IH.
Qed.

Lemma replace_ws_runs_entered (y : jsstring) :
  starts_with_ws y = false ->
  replace_ws_runs rep true y = replace_ws_runs rep false y.
Proof.
  destruct y as [|d y]; [reflexivity|].
  rewrite starts_with_ws_cons. intros Hd.
  now rewrite !replace_ws_runs_cons, Hd.
Qed.

(** A run of two or more white space code units before text becomes the
    replacement text. *)
Lemma replace_ws_runs_run (run y : jsstring) :
  (2 <= List.length run)%nat -> forallb is_whitespace run = true ->
  starts_with_ws y = false ->
  replace_ws_runs rep false (run ++ y) = rep ++ replace_ws_runs rep false y.
Proof.
  intros Hlen Hrun Hy.
  destruct run as [|w1 [|w2 run]]; try (cbn in Hlen; lia).
  change (forallb is_whitespace (w1 :: w2 :: run))
    with (is_whitespace w1 && forallb is_whitespace (w2 :: run)) in Hrun.
  apply andb_true_iff in Hrun as [H1 Hrun].
  change ((w1 :: w2 :: run) ++ y) with (w1 :: ((w2 :: run) ++ y)).
  rewrite replace_ws_runs_cons, H1. cbn [app].
  assert (H2 : is_whitespace w2 = true)
    by (cbn [forallb] in Hrun; now apply andb_true_iff in Hrun as [H2 _]).
  rewrite H2. change (w2 :: run ++ y) with ((w2 :: run) ++ y).
  rewrite (replace_ws_runs_skip _ _ Hrun).
  now rewrite (replace_ws_runs_entered _ Hy).
Qed.

Lemma trimStart_whitespace (ws y : jsstring) :
  forallb is_whitespace ws = true -> trimStart (ws ++ y) = trimStart y.
Proof.
  induction ws as [|w ws IH]; intros H; [reflexivity|].
  cbn [forallb] in H. apply andb_true_iff in H as [Hw H].
  change ((w :: ws) ++ y) with (w :: (ws ++ y)).
  rewrite trimStart_cons, Hw. now apply IH.
Qed.

Lemma trimEnd_whitespace (x ws : jsstring) :
  forallb is_whitespace ws = true -> trimEnd (x ++ ws) = trimEnd x.
Proof.
  intros H. unfold trimEnd. rewrite rev_app_distr.
  rewrite trimStart_whitespace; [reflexivity|].
  apply forallb_forall. intros y Hy. apply in_rev in Hy.
  rewrite forallb_forall in H. now apply H.
Qed.

Lemma trim_whitespace_around (w1 x w2 : jsstring) :
  forallb is_whitespace w1 = true -> forallb is_whitespace w2 = true ->
  trim (w1 ++ x ++ w2) = trim x.
Proof.
  intros H1 H2. unfold trim. rewrite (trimStart_whitespace _ _ H1).
  induction x as [|c x IH].
  - cbn [app]. rewrite <- (app_nil_r w2) at 1.
    now rewrite (trimStart_whitespace _ _ H2).
  - change ((c :: x) ++ w2) with (c :: (x ++ w2)).
    rewrite !trimStart_cons. destruct (is_whitespace c); [exact IH|].
    change (c :: x ++ w2) with ((c :: x) ++ w2).
    now apply trimEnd_whitespace.
Qed.

Hypothesis rep_ws : forallb is_whitespace rep = true.

(** Removing white space at the ends and replacing runs can be done in
    either order. *)
Lemma trimStart_replace_ws_runs (b : bool) (s : jsstring) :
  trimStart (replace_ws_runs rep b s) = replace_ws_runs rep false (trimStart s).
Proof.
  revert b. induction s as [|c s IH]; intros b; [reflexivity|].
  rewrite replace_ws_runs_cons, (trimStart_cons c s).
  destruct (is_whitespace c) eqn:Ec.
  - destruct b; [apply IH|].
    destruct s as [|d s]; [now rewrite trimStart_cons, Ec|].
    destruct (is_whitespace d).
    + now rewrite (trimStart_whitespace _ _ rep_ws).
    + rewrite trimStart_cons, Ec. apply IH.
  - now rewrite trimStart_cons, Ec, replace_ws_runs_cons, Ec.
Qed.

Lemma replace_ws_runs_whitespace (b : bool) (ws : jsstring) :
  forallb is_whitespace ws = true ->
  forallb is_whitespace (replace_ws_runs rep b ws) = true.
Proof.
  intros H. apply forallb_forall. intros x Hx.
  apply In_replace_ws_runs in Hx as [Hx|Hx].
  - rewrite forallb_forall in H. now apply H.
  - pose proof rep_ws as R. rewrite forallb_forall in R. now apply R.
Qed.

Lemma trimEnd_replace_ws_runs (b : bool) (s : jsstring) :
  trimEnd (replace_ws_runs rep b s) = replace_ws_runs rep b (trimEnd s).
Proof.
  destruct (trimEnd_split s) as (w & Hs & Hw).
  pose proof (trimEnd_ends s) as He.
  rewrite Hs at 1. destruct (trimEnd s) as [|c u] eqn:Eu.
  - cbn [app replace_ws_runs]. rewrite <- (app_nil_l (replace_ws_runs _ _ _)).
    rewrite trimEnd_whitespace; [reflexivity|].
    now apply replace_ws_runs_whitespace.
  - rewrite replace_ws_runs_app by (try discriminate; exact He).
    rewrite trimEnd_whitespace by now apply replace_ws_runs_whitespace.
    apply trimEnd_id.
    now apply replace_ws_runs_ends; [discriminate|].
Qed.

End WhiteSpaceRuns.

Lemma cleanup_trim_first (t : jsstring) :
  cleanup t = replace_ws_runs (js " ") false (trim t).
Proof.
  unfold cleanup, trim.
  rewrite (trimStart_replace_ws_runs (js " ") eq_refl).
  now rewrite (trimEnd_replace_ws_runs (js " ") eq_refl).
Qed.

Lemma substitute_whitespace_before (ws b : jsstring) :
  forallb is_whitespace ws = true ->
  substitute (ws ++ b) = ws ++ substitute b.
Proof.
  induction ws as [|w ws IH]; intros H; [reflexivity|].
  cbn [forallb] in H. apply andb_true_iff in H as [Hw H].
  change ((w :: ws) ++ b) with ([] ++ w :: (ws ++ b)).
  rewrite (substitute_split _ _ w Hw), (IH H). reflexivity.
Qed.

Lemma substitute_whitespace_after (a ws : jsstring) :
  forallb is_whitespace ws = true ->
  substitute (a ++ ws) = substitute a ++ ws.
Proof.
  intros H. destruct ws as [|w ws]; [now rewrite !app_nil_r|].
  cbn [forallb] in H. apply andb_true_iff in H as [Hw H].
  rewrite (substitute_split _ _ w Hw).
  rewrite <- (app_nil_r ws) at 1.
  now rewrite (substitute_whitespace_before _ _ H), app_nil_r.
Qed.

Lemma substitute_whitespace_between (a ws b : jsstring) :
  ws <> [] -> forallb is_whitespace ws = true ->
  substitute (a ++ ws ++ b) = substitute a ++ ws ++ substitute b.
Proof.
  intros Hne H. destruct ws as [|w ws]; [congruence|].
  cbn [forallb] in H. apply andb_true_iff in H as [Hw H].
  change (a ++ (w :: ws) ++ b) with (a ++ w :: (ws ++ b)).
  rewrite (substitute_split _ _ w Hw).
  now rewrite (substitute_whitespace_before _ _ H).
Qed.

Lemma toLowerCase_whitespace (ws : jsstring) :
  forallb is_whitespace ws = true -> toLowerCase ws = ws.
Proof.
  intros H. apply map_fixed. intros x Hx. apply lower_unit_whitespace.
  rewrite forallb_forall in H. now apply H.
Qed.

Lemma normalizeDarija_pipeline (s : jsstring) :
  normalizeDarija (JSString s) =
  Normal (cleanup (substitute (toLowerCase s))).
Proof. rewrite normalizeDarija_string. now destruct s. Qed.

(** X7: texts of ASCII, white space and Arabic-script characters that are
    separated by a run of two or more white space characters are
    normalized one by one, and the run becomes one space. *)
Theorem whitespace_run_becomes_space (a run b : jsstring) :
  plain_text a = true -> plain_text b = true ->
  a <> [] -> ends_with_ws a = false ->
  (2 <= List.length run)%nat -> forallb is_whitespace run = true ->
  b <> [] -> starts_with_ws b = false ->
  exists a' b',
    normalizeDarija (JSString a) = Normal a'
    /\ normalizeDarija (JSString b) = Normal b'
    /\ normalizeDarija (JSString (a ++ run ++ b)) = Normal (a' ++ 32 :: b').
Proof.
  intros _ _ Ha Hae Hlen Hrun Hb Hbs.
  assert (Hne : run <> []) by (destruct run; [cbn in Hlen; lia | discriminate]).
  assert (HA : substitute (toLowerCase a) <> []
               /\ ends_with_ws (substitute (toLowerCase a)) = false).
  { unfold substitute.
    apply (apply_rules_ends _ _ single_rules_wf);
      apply (apply_rules_ends _ _ multi_rules_wf).
    - destruct a; [congruence | discriminate].
    - now rewrite toLowerCase_ends.
    - destruct a; [congruence | discriminate].
    - now rewrite toLowerCase_ends. }
  assert (HB : substitute (toLowerCase b) <> []
               /\ starts_with_ws (substitute (toLowerCase b)) = false).
  { unfold substitute.
    apply (apply_rules_starts _ _ single_rules_wf);
      apply (apply_rules_starts _ _ multi_rules_wf).
    - destruct b; [congruence | discriminate].
    - now rewrite toLowerCase_starts.
    - destruct b; [congruence | discriminate].
    - now rewrite toLowerCase_starts. }
  destruct HA as [HA HAe], HB as [HB HBs].
  exists (cleanup (substitute (toLowerCase a))),
         (cleanup (substitute (toLowerCase b))).
  rewrite !normalizeDarija_pipeline. split; [reflexivity|].
  split; [reflexivity|]. f_equal.
  unfold toLowerCase. rewrite !map_app. fold (toLowerCase a).
  fold (toLowerCase run). fold (toLowerCase b).
  rewrite (toLowerCase_whitespace _ Hrun).
  rewrite (substitute_whitespace_between _ _ _ Hne Hrun).
  set (x := substitute (toLowerCase a)) in *.
  set (y := substitute (toLowerCase b)) in *.
  destruct (replace_ws_runs_ends x HA HAe (js " ") false) as [Hx' Hxe'].
  destruct (replace_ws_runs_starts y HB HBs (js " ")) as [Hy' Hys'].
  destruct (trimStart_ends _ Hx' Hxe') as [Hx'' Hxe''].
  unfold cleanup, trim.
  rewrite (replace_ws_runs_app (js " ") false x (run ++ y) HA HAe).
  rewrite (replace_ws_runs_run (js " ") run y Hlen Hrun HBs).
  rewrite (trimStart_app _ Hx' Hxe').
  rewrite (trimEnd_id _ Hxe''), (trimStart_id _ Hys').
  rewrite app_assoc, (trimEnd_app _ _ Hy' Hys').
  now rewrite <- app_assoc.
Qed.

Lemma whitespace_run_becomes_space_example :
  exists a' b',
    normalizeDarija (JSString (js "7ob")) = Normal a'
    /\ normalizeDarija (JSString (js "SHkun")) = Normal b'
    /\ normalizeDarija (JSString (js "7ob" ++ [9; 32; 10] ++ js "SHkun"))
       = Normal (a' ++ 32 :: b').
Proof.
  apply whitespace_run_becomes_space.
  - reflexivity.
  - reflexivity.
  - discriminate.
  - reflexivity.
  - cbn. lia.
  - reflexivity.
  - discriminate.
  - reflexivity.
Defined.

(** X8: white space before and after the text is ignored. *)
Theorem whitespace_around_ignored (w1 s w2 : jsstring) :
  forallb is_whitespace w1 = true -> forallb is_whitespace w2 = true ->
  normalizeDarija (JSString (w1 ++ s ++ w2)) = normalizeDarija (JSString s).
Proof.
  intros H1 H2. rewrite !normalizeDarija_pipeline. f_equal.
  unfold toLowerCase. rewrite !map_app. fold (toLowerCase w1).
  fold (toLowerCase s). fold (toLowerCase w2).
  rewrite (toLowerCase_whitespace _ H1), (toLowerCase_whitespace _ H2).
  rewrite (substitute_whitespace_before _ _ H1).
  rewrite (substitute_whitespace_after _ _ H2).
  rewrite !cleanup_trim_first.
  now rewrite (trim_whitespace_around _ _ _ H1 H2).
Qed.

Lemma whitespace_around_ignored_example :
  normalizeDarija (JSString ([32; 9] ++ js "d7 sh" ++ [10]))
  = normalizeDarija (JSString (js "d7 sh")).
Proof.
  apply whitespace_around_ignored; reflexivity.
Defined.

(** ** One turn of a loop *)

Lemma table_keys_replace :
  forallb
    (fun key =>
       negb (existsb is_syntax_character key)
       && negb (Nat.eqb (List.length key) 0)
       && negb (Nat.eqb
                  (List.length (ToString_property (get ARABIC_CHAT_MAP key)))
                  0)
       && forallb
            (fun key' =>
               forallb (fun x => negb (existsb (N.eqb x) key'))
                 (ToString_property (get ARABIC_CHAT_MAP key)))
            (map fst ARABIC_CHAT_MAP))
    (map fst ARABIC_CHAT_MAP) = true.
Proof. reflexivity. Qed.

(** X11: one call of the loops' callback on a key of the table does not
    raise, leaves no occurrence of that key, and creates no occurrence of
    any key of the table that was absent. *)
Theorem replace_key_clears (key t : jsstring) :
  In key (map fst ARABIC_CHAT_MAP) ->
  exists t',
    replace_key key t = Normal t'
    /\ occurs key t' = false
    /\ forall key', In key' (map fst ARABIC_CHAT_MAP) ->
         occurs key' t = false -> occurs key' t' = false.
Proof.
  intros Hkey. pose proof table_keys_replace as H.
  rewrite forallb_forall in H. pose proof (H key Hkey) as Hk.
  cbv beta in Hk. rewrite !andb_true_iff, !negb_true_iff in Hk.
  destruct Hk as [[[Hlit Hne] Hv] Hf].
  set (v := ToString_property (get ARABIC_CHAT_MAP key)) in *.
  assert (Hkey_ne : key <> [])
    by (intros E; rewrite E in Hne; discriminate Hne).
  assert (Hv_ne : v <> [])
    by (intros E; rewrite E in Hv; discriminate Hv).
  assert (Hforeign : forall key', In key' (map fst ARABIC_CHAT_MAP) ->
            forall x, In x v -> ~ In x key').
  { intros key' Hkey' x Hx Hin. rewrite forallb_forall in Hf.
    specialize (Hf key' Hkey'). rewrite forallb_forall in Hf.
    specialize (Hf x Hx). apply negb_true_iff in Hf.
    assert (existsb (N.eqb x) key' = true); [|congruence].
    apply existsb_exists. exists x. split; [exact Hin | apply N.eqb_refl]. }
  exists (replace_all key v t). split; [now apply replace_key_literal|].
  split.
  - apply replace_all_clears; auto.
  - intros key' Hkey' Habs.
    destruct (table_key_spec key' Hkey') as (Hne' & _ & _).
    apply replace_all_keeps_absent; auto.
Qed.

Lemma replace_key_clears_sh :
  exists t',
    replace_key (js "sh") (js "shshkun d7 sha") = Normal t'
    /\ occurs (js "sh") t' = false
    /\ forall key', In key' (map fst ARABIC_CHAT_MAP) ->
         occurs key' (js "shshkun d7 sha") = false -> occurs key' t' = false.
Proof.
  apply replace_key_clears. vm_compute. tauto.
Defined.

(** ** The keys the loops visit *)

Lemma insert_index_permutation (e : N * jsstring) (l : list (N * jsstring)) :
  Permutation (e :: l) (insert_index e l).
Proof.
  induction l as [|e' l IH]; [apply Permutation_refl|].
  cbn [insert_index]. destruct (fst e <=? fst e').
  - apply Permutation_refl.
  - apply (perm_trans (perm_swap e' e l)). now apply perm_skip.
Qed.

(** [Object.keys] lists the keys of a table, each as often as it is
    written. *)
Lemma Object_keys_permutation (t : JSTable) :
  Permutation (Object_keys t) (map fst t).
Proof.
  unfold Object_keys. induction t as [|[key v] t IH]; [apply perm_nil|].
  cbn [index_keys string_keys map fst].
  destruct (array_index key) as [i|].
  - apply Permutation_sym.
    apply (perm_trans (perm_skip key (Permutation_sym IH))).
    change (key :: map snd (index_keys t) ++ string_keys t)
      with (map snd ((i, key) :: index_keys t) ++ string_keys t).
    apply Permutation_app_tail, Permutation_map, insert_index_permutation.
  - apply Permutation_sym.
    apply (perm_trans (perm_skip key (Permutation_sym IH))).
    apply Permutation_middle.
Qed.

Lemma filter_permutation {A : Type} (f : A -> bool) (l l' : list A) :
  Permutation l l' -> Permutation (filter f l) (filter f l').
Proof.
  induction 1 as [|x l l' Hp IH|x y l|l l' l'' Hp1 IH1 Hp2 IH2].
  - apply perm_nil.
  - cbn [filter]. destruct (f x); [now apply perm_skip | exact IH].
  - cbn [filter]. destruct (f x), (f y);
      try apply Permutation_refl. apply perm_swap.
  - now apply (perm_trans IH1).
Qed.

Lemma filter_split_lengths (l : list jsstring) :
  Permutation
    (filter (fun key => Nat.ltb 1 (List.length key)) l
       ++ filter (fun key => Nat.eqb (List.length key) 1) l)
    (filter (fun key => negb (Nat.eqb (List.length key) 0)) l).
Proof.
  induction l as [|key l IH]; [apply perm_nil|].
  cbn [filter].
  destruct (List.length key) as [|[|n]]; cbn [Nat.ltb Nat.leb Nat.eqb negb].
  - exact IH.
  - apply Permutation_sym, (perm_trans (perm_skip key (Permutation_sym IH))).
    apply Permutation_middle.
  - cbn [app]. now apply perm_skip.
Qed.

(** X13: for a table whose keys are distinct, the two loops between them
    visit every key that is not empty exactly once, and every key they
    visit has an entry: the text [undefined] is never put in. *)
Theorem loops_visit_every_key (t : JSTable) :
  NoDup (map fst t) ->
  let visited :=
    Array_sort by_length_descending
      (filter (fun key => Nat.ltb 1 (List.length key)) (Object_keys t))
      ++ filter (fun key => Nat.eqb (List.length key) 1) (Object_keys t) in
  Permutation visited
    (filter (fun key => negb (Nat.eqb (List.length key) 0)) (map fst t))
  /\ NoDup visited
  /\ forall key, In key visited -> exists v, get t key = Some v.
Proof.
  intros Hnd visited.
  assert (Hp : Permutation visited
                 (filter (fun key => negb (Nat.eqb (List.length key) 0))
                    (map fst t))).
  { unfold visited.
    apply (perm_trans
             (Permutation_app_tail _
                (Permutation_sym (Array_sort_permutation _ _)))).
    apply (perm_trans (filter_split_lengths _)).
    apply filter_permutation, Object_keys_permutation. }
  split; [exact Hp|]. split.
  - apply (Permutation_NoDup (Permutation_sym Hp)).
    now apply NoDup_filter.
  - intros key Hkey. apply (Permutation_in _ Hp) in Hkey.
    apply filter_In in Hkey as [Hkey _]. clear Hp visited Hnd.
    induction t as [|[k v] t IH]; [destruct Hkey|].
    cbn [get]. destruct (jsstring_eqb k key) eqn:E; [now exists v|].
    destruct Hkey as [Hk|Hk]; [|now apply IH].
    cbn [fst] in Hk. subst k.
    assert (jsstring_eqb key key = true) by now apply jsstring_eqb_eq.
    congruence.
Qed.

Lemma loops_visit_every_key_of_the_table :
  let visited := multiCharKeys ++ singleCharKeys in
  Permutation visited
    (filter (fun key => negb (Nat.eqb (List.length key) 0))
       (map fst ARABIC_CHAT_MAP))
  /\ NoDup visited
  /\ forall key, In key visited ->
       exists v, get ARABIC_CHAT_MAP key = Some v.
Proof.
  apply (loops_visit_every_key ARABIC_CHAT_MAP).
  vm_compute. repeat constructor; cbn; intuition discriminate.
Defined.

(** ** The first loop does not depend on the order of its keys *)

Lemma replace_all_pair (a b : codeunit) (rep : jsstring) (x y : codeunit)
  (s : jsstring) :
  replace_all [a; b] rep (x :: y :: s) =
  if (a =? x) && (b =? y) then rep ++ replace_all [a; b] rep s
  else x :: replace_all [a; b] rep (y :: s).
Proof.
  unfold replace_all. cbn [replace_from starts_with List.length Nat.sub].
  now rewrite andb_true_r.
Qed.

Lemma replace_all_pair_one (a b : codeunit) (rep : jsstring) (x : codeunit) :
  replace_all [a; b] rep [x] = [x].
Proof.
  unfold replace_all. cbn [replace_from starts_with].
  now rewrite andb_false_r.
Qed.

Lemma replace_all_pair_miss (a b : codeunit) (rep : jsstring) (x : codeunit)
  (s : jsstring) :
  a <> x ->
  replace_all [a; b] rep (x :: s) = x :: replace_all [a; b] rep s.
Proof.
  intros Hne. destruct s as [|y s]; [apply replace_all_pair_one|].
  rewrite replace_all_pair.
  destruct (N.eqb_spec a x); [contradiction | reflexivity].
Qed.

Lemma replace_all_pair_foreign (a b : codeunit) (rep r t : jsstring) :
  (forall x, In x r -> a <> x) ->
  replace_all [a; b] rep (r ++ t) = r ++ replace_all [a; b] rep t.
Proof.
  induction r as [|x r IH]; intros H; [reflexivity|].
  cbn [app]. rewrite replace_all_pair_miss by (apply H; now left).
  rewrite IH; [reflexivity|]. intros y Hy. apply H. now right.
Qed.

Lemma replace_all_pair_head (a b : codeunit) (rep : jsstring) (y : codeunit)
  (s : jsstring) :
  rep <> [] ->
  exists z rest,
    replace_all [a; b] rep (y :: s) = z :: rest /\ (z = y \/ In z rep).
Proof.
  intros Hrep. destruct s as [|w s].
  - exists y, []. split; [apply replace_all_pair_one | now left].
  - rewrite replace_all_pair. destruct ((a =? y) && (b =? w)).
    + destruct rep as [|z rep]; [congruence|].
      exists z, (rep ++ replace_all [a; b] (z :: rep) s).
      split; [reflexivity | right; now left].
    + eexists. eexists. split; [reflexivity | now left].
Qed.

Section TwoRules.

Variables (a1 b1 a2 b2 : codeunit) (r1 r2 : jsstring).
Hypothesis end1_start2 : b1 <> a2.
Hypothesis end2_start1 : b2 <> a1.
Hypothesis keys_differ : (a1 =? a2) && (b1 =? b2) = false.
Hypothesis r1_not_empty : r1 <> [].
Hypothesis r2_not_empty : r2 <> [].
Hypothesis r1_foreign : forall x, In x r1 -> x <> a2 /\ x <> b2.
Hypothesis r2_foreign : forall x, In x r2 -> x <> a1 /\ x <> b1.

Lemma replace_all_pair_step (a b : codeunit) (rep : jsstring)
  (a' b' : codeunit) (rep' : jsstring) (x y : codeunit) (s : jsstring) :
  rep' <> [] -> (forall z, In z rep' -> z <> b) ->
  (a =? x) && (b =? y) = false ->
  replace_all [a; b] rep (x :: replace_all [a'; b'] rep' (y :: s)) =
  x :: replace_all [a; b] rep (replace_all [a'; b'] rep' (y :: s)).
Proof.
  intros Hrep Hf Hxy.
  destruct (replace_all_pair_head a' b' rep' y s Hrep)
    as (z & rest & -> & [->|Hz]).
  - now rewrite replace_all_pair, Hxy.
  - rewrite replace_all_pair.
    destruct (N.eqb_spec b z) as [E|_]; [|now rewrite andb_false_r].
    exfalso. now apply (Hf z Hz).
Qed.

Lemma replace_all_pairs_commute (s : jsstring) :
  replace_all [a2; b2] r2 (replace_all [a1; b1] r1 s) =
  replace_all [a1; b1] r1 (replace_all [a2; b2] r2 s).
Proof.
  remember (List.length s) as n eqn:Hn.
  assert (Hle : (List.length s <= n)%nat) by lia. clear Hn.
  revert s Hle. induction n as [|n IH]; intros s Hle.
  - destruct s; [reflexivity | cbn in Hle; lia].
  - destruct s as [|x [|y s]].
    + reflexivity.
    + now rewrite !replace_all_pair_one.
    + cbn [List.length] in Hle.
      rewrite (replace_all_pair a1 b1 r1 x y s).
      rewrite (replace_all_pair a2 b2 r2 x y s).
      destruct ((a1 =? x) && (b1 =? y)) eqn:E1.
      * apply andb_true_iff in E1 as [Ex Ey].
        apply N.eqb_eq in Ex, Ey. subst x y.
        rewrite (N.eqb_sym a2 a1), (N.eqb_sym b2 b1), keys_differ.
        rewrite replace_all_pair_foreign
          by (intros z Hz E; destruct (r1_foreign z Hz) as [F _]; congruence).
        rewrite (replace_all_pair_miss a2 b2 r2 b1) by congruence.
        rewrite replace_all_pair, !N.eqb_refl. cbn [andb].
        f_equal. apply IH. lia.
      * destruct ((a2 =? x) && (b2 =? y)) eqn:E2.
        -- apply andb_true_iff in E2 as [Ex Ey].
           apply N.eqb_eq in Ex, Ey. subst x y.
           rewrite (replace_all_pair_miss a1 b1 r1 b2) by congruence.
           rewrite replace_all_pair, !N.eqb_refl. cbn [andb].
           rewrite replace_all_pair_foreign
             by (intros z Hz E; destruct (r2_foreign z Hz) as [F _];
                 congruence).
           f_equal. apply IH. lia.
        -- rewrite replace_all_pair_step;
             [|exact r1_not_empty
              |intros z Hz; now apply (r1_foreign z Hz) | exact E2].
           rewrite (replace_all_pair_step a1 b1 r1 a2 b2 r2);
             [|exact r2_not_empty
              |intros z Hz; now apply (r2_foreign z Hz) | exact E1].
           f_equal. apply IH. cbn [List.length]. lia.
Qed.

End TwoRules.

Lemma rules_apart_commute (r r' : jsstring * jsstring) (t : jsstring) :
  rules_apart r r' = true ->
  replace_all (fst r) (snd r) (replace_all (fst r') (snd r') t) =
  replace_all (fst r') (snd r') (replace_all (fst r) (snd r) t).
Proof.
  unfold rules_apart. destruct r as [k v], r' as [k' v']. cbn [fst snd].
  destruct k as [|a [|b [|? ?]]]; try discriminate.
  destruct k' as [|a' [|b' [|? ?]]]; try discriminate.
  rewrite !andb_true_iff, !negb_true_iff.
  intros [[[[[[H1 H2] H3] H4] H5] H6] H7].
  apply N.eqb_neq in H1, H2.
  rewrite forallb_forall in H6, H7.
  apply (replace_all_pairs_commute a' b' a b v' v).
  - congruence.
  - congruence.
  - now rewrite (N.eqb_sym a' a), (N.eqb_sym b' b).
  - intros E. now rewrite E in H5.
  - intros E. now rewrite E in H4.
  - intros x Hx. specialize (H7 x Hx).
    rewrite andb_true_iff, !negb_true_iff, !N.eqb_neq in H7. exact H7.
  - intros x Hx. specialize (H6 x Hx).
    rewrite andb_true_iff, !negb_true_iff, !N.eqb_neq in H6. exact H6.
Qed.

Lemma apply_rules_permutation (l l' : list (jsstring * jsstring)) :
  Permutation l l' ->
  (forall r r', In r l -> In r' l ->
     r = r' \/ rules_apart r r' = true) ->
  forall t, apply_rules l t = apply_rules l' t.
Proof.
  induction 1 as [|x l l' Hp IH|x y l|l l' l'' Hp1 IH1 Hp2 IH2];
    intros Hl t.
  - reflexivity.
  - rewrite !apply_rules_cons. apply IH.
    intros r r' Hr Hr'. apply Hl; now right.
  - rewrite !apply_rules_cons.
    destruct (Hl x y) as [->|Hxy]; [right; now left | now left | reflexivity|].
    now rewrite (rules_apart_commute x y t Hxy).
  - rewrite IH1 by exact Hl. apply IH2.
    intros r r' Hr Hr'.
    apply Hl; apply (Permutation_in _ (Permutation_sym Hp1)); assumption.
Qed.

Lemma multi_rules_apart :
  forallb
    (fun r => forallb (fun r' => same_rule r r' || rules_apart r r')
                multi_rules)
    multi_rules = true.
Proof. reflexivity. Qed.

(** The order in which the first loop visits the keys of two code units
    does not matter: no two of them can overlap, so any order gives what
    the order of the table gives. *)
Lemma multi_pass_any_order (rules : JSTable) (t : jsstring) :
  Permutation rules multi_rules ->
  apply_rules rules t = apply_rules multi_rules t.
Proof.
  intros Hp. apply (apply_rules_permutation _ _ Hp).
  intros r r' Hr Hr'.
  apply (Permutation_in _ Hp) in Hr, Hr'.
  pose proof multi_rules_apart as H. rewrite forallb_forall in H.
  specialize (H r Hr). cbv beta in H. rewrite forallb_forall in H.
  specialize (H r' Hr'). apply orb_true_iff in H as [H|H]; [left | now right].
  unfold same_rule in H. apply andb_true_iff in H as [Hk Hv].
  apply jsstring_eqb_eq in Hk, Hv.
  destruct r, r'. cbn [fst snd] in *. now subst.
Qed.

Lemma multi_pass_any_order_reversed :
  apply_rules (rev multi_rules) (js "shkun d7 s9dh z7, d9s5")
  = apply_rules multi_rules (js "shkun d7 s9dh z7, d9s5").
Proof.
  apply multi_pass_any_order. apply Permutation_sym, Permutation_rev.
Defined.

(** ** The loops as the function runs them *)

Lemma forEach_replace_key_permuted (keys keys' : list jsstring)
  (t : jsstring) :
  Permutation keys keys' ->
  forallb (fun key => negb (existsb is_syntax_character key)) keys' = true ->
  forEach keys replace_key t = Normal (apply_rules (rules_of keys) t)
  /\ Permutation (rules_of keys) (rules_of keys').
Proof.
  intros Hp Hlit. split.
  - apply forEach_replace_key. apply forallb_forall. intros key Hkey.
    rewrite forallb_forall in Hlit. apply Hlit.
    now apply (Permutation_in _ Hp).
  - unfold rules_of. now apply Permutation_map.
Qed.

(** X9: the first loop gives the same text in whatever order it visits
    the keys of two code units: the order [Object.keys] lists them in and
    the way the sort treats keys of one length do not show in the
    result. *)
Theorem first_loop_any_order (keys : list jsstring) (t : jsstring) :
  Permutation keys multiCharKeys ->
  forEach keys replace_key t = forEach multiCharKeys replace_key t.
Proof.
  intros Hp.
  destruct (forEach_replace_key_permuted keys multiCharKeys t Hp eq_refl)
    as [-> Hr].
  rewrite (forEach_replace_key multiCharKeys t eq_refl). f_equal.
  change (rules_of multiCharKeys) with multi_rules in *.
  now apply multi_pass_any_order.
Qed.

Lemma first_loop_any_order_reversed :
  forEach (rev multiCharKeys) replace_key (js "shkun d7 s9dh z7, d9s5")
  = forEach multiCharKeys replace_key (js "shkun d7 s9dh z7, d9s5").
Proof.
  apply first_loop_any_order. apply Permutation_sym, Permutation_rev.
Defined.

(** X10: the second loop, in whatever order it visits the digit keys,
    replaces every code unit that is a key of the table by its entry and
    keeps every other code unit: all the digits are replaced at once. *)
Theorem second_loop_any_order (keys : list jsstring) (t : jsstring) :
  Permutation keys singleCharKeys ->
  forEach keys replace_key t =
  Normal (flat_map (substitute_unit ARABIC_CHAT_MAP) t).
Proof.
  intros Hp.
  destruct (forEach_replace_key_permuted keys singleCharKeys t Hp eq_refl)
    as [-> Hr].
  f_equal. change (rules_of singleCharKeys) with single_rules in Hr.
  now apply single_pass_any_order.
Qed.

Lemma second_loop_any_order_written :
  forEach (map js [ "3"; "7"; "9"; "2"; "5"; "6"; "8" ]%string) replace_key
    (js "3andi 7ob, 9albi 2 5 6 8")
  = Normal (flat_map (substitute_unit ARABIC_CHAT_MAP)
              (js "3andi 7ob, 9albi 2 5 6 8")).
Proof.
  apply second_loop_any_order.
  apply NoDup_Permutation.
  - vm_compute. repeat constructor; cbn; intuition discriminate.
  - vm_compute. repeat constructor; cbn; intuition discriminate.
  - intros r. split; intros H; vm_compute in H |- *; tauto.
Defined.
